(** * PolynomialSolver.js: digit decoding and polynomial synthesis

    A shallow embedding of [src/PolynomialSolver.js] and the properties its
    specification states about it.

    Conventions of the embedding.
    - A JavaScript [BigInt] is a [Z]: both are unbounded, and the operations
      the script uses ([+], [*], unary [-], [>=]) are the exact ones.
    - A JavaScript string is a [string]: every [ascii] is one UTF-16 code unit
      in the range 0..255.  Code units above 0xFF are outside the embedding.
    - A [throw new Error(...)] is a value [Err e] of the result type; [e]
      records the throw site and the values interpolated in the message.
    - An array is a [list]; where a claim is about aliasing the array lives
      in a store (see [Module Heap]). *)

From Stdlib Require Import ZArith Ascii String List Lia Permutation.
From stdpp Require Import base option list gmap strings pretty.

Local Open Scope Z_scope.

(** ** Results and errors *)

(** Every [throw] of the script, with the values its message interpolates. *)
Inductive error : Type :=
  | Err_InvalidDigitCharacter (ch : ascii)
      (* charToDigit: `Invalid digit character: ${ch}` *)
  | Err_InvalidBase (baseStr : string)
      (* decodeBigInt: `Invalid base '${baseStr}'. Supported range: 2..36` *)
  | Err_EmptyValueString
      (* decodeBigInt: 'Empty value string' *)
  | Err_OnlySign
      (* decodeBigInt: 'Value is only sign, no digits' *)
  | Err_DigitNotValid (ch : ascii) (baseInt : Z)
      (* decodeBigInt: `Digit '${s[i]}' not valid for base ${baseInt}` *)
  | Err_MissingKeys (idx : Z)
      (* processSingleTestCase: `Testcase ${idx+1}: missing or invalid keys.n / keys.k` *)
  | Err_NotEnoughRoots (idx : Z) (need found : Z)
      (* processSingleTestCase: `Testcase ${idx+1}: Not enough roots ...` *)
  | Err_TypeError.
      (* raised by the engine: arithmetic on [undefined], read past an array *)

Inductive result (A : Type) : Type :=
  | OK (a : A)
  | Err (e : error).
Arguments OK {A} a.
Arguments Err {A} e.

Definition bind {A B : Type} (r : result A) (f : A -> result B) : result B :=
  match r with
  | OK a => f a
  | Err e => Err e
  end.

Notation "'let*' x ':=' r 'in' k" := (bind r (fun x => k))
  (at level 10, x name, r at level 100, k at level 200, only parsing).

Definition is_ok {A : Type} (r : result A) : bool :=
  match r with OK _ => true | Err _ => false end.

(** The error kinds of the specification (section 7). *)
Inductive error_kind : Type :=
  | InvalidBase
  | EmptyValue
  | InvalidDigitChar
  | DigitOutOfRange
  | InsufficientRoots
  | MalformedCase
  | PreconditionViolation.

Definition kind_of (e : error) : error_kind :=
  match e with
  | Err_InvalidDigitCharacter _ => InvalidDigitChar
  | Err_InvalidBase _ => InvalidBase
  | Err_EmptyValueString => EmptyValue
  | Err_OnlySign => EmptyValue
  | Err_DigitNotValid _ _ => DigitOutOfRange
  | Err_MissingKeys _ => MalformedCase
  | Err_NotEnoughRoots _ _ _ => InsufficientRoots
  | Err_TypeError => PreconditionViolation
  end.

(** ** Code units and the string built-ins the script calls *)

Definition code (c : ascii) : Z := Z.of_N (N_of_ascii c).

Definition chr (z : Z) : ascii := ascii_of_N (Z.to_N z).

(** ECMAScript [WhiteSpace] and [LineTerminator] code units below 0x100:
    TAB, LF, VT, FF, CR, SP and NBSP. *)
Definition isWhiteSpace (c : ascii) : bool :=
  let n := code c in
  ((9 <=? n) && (n <=? 13)) || (n =? 32) || (n =? 160).

(** [String.prototype.toLowerCase] on one code unit below 0x100: A-Z and
    the Latin-1 capitals U+00C0..U+00DE (but the sign U+00D7) move up by 32. *)
Definition toLowerCase_char (c : ascii) : ascii :=
  let n := code c in
  if ((65 <=? n) && (n <=? 90))
     || ((192 <=? n) && (n <=? 222) && negb (n =? 215))
  then chr (n + 32) else c.

Fixpoint toLowerCase (s : string) : string :=
  match s with
  | EmptyString => EmptyString
  | String c s' => String (toLowerCase_char c) (toLowerCase s')
  end.

Fixpoint trimStart (s : string) : string :=
  match s with
  | EmptyString => EmptyString
  | String c s' => if isWhiteSpace c then trimStart s' else s
  end.

Fixpoint trimEnd (s : string) : string :=
  match s with
  | EmptyString => EmptyString
  | String c s' =>
      match trimEnd s' with
      | EmptyString => if isWhiteSpace c then EmptyString else String c EmptyString
      | t => String c t
      end
  end.

Definition trim (s : string) : string := trimEnd (trimStart s).

(** *** [parseInt]

    ECMAScript [parseInt(string, radix)]: leading white space is skipped, one
    sign is read, then the longest prefix of radix digits; anything after it
    is ignored.  No digit at all gives NaN, here [None].

    The script only tests the result with [Number.isInteger] and compares it
    with 2 and 36.  The Number that [parseInt] returns is the double nearest
    to the integer read; rounding is monotone and exact up to 2^53, so these
    tests have the same outcome on the integer itself, which is what the
    embedding returns. *)

Definition radix_digit (R : Z) (c : ascii) : option Z :=
  let n := code c in
  let v :=
    if (48 <=? n) && (n <=? 57) then Some (n - 48)
    else if (97 <=? n) && (n <=? 122) then Some (n - 97 + 10)
    else if (65 <=? n) && (n <=? 90) then Some (n - 65 + 10)
    else None in
  match v with
  | Some d => if d <? R then Some d else None
  | None => None
  end.

(** The longest prefix of radix-[R] digits of [s], folded most significant
    digit first; [None] when that prefix is empty. *)
Fixpoint parse_digits (R : Z) (s : string) (acc : option Z) : option Z :=
  match s with
  | EmptyString => acc
  | String c s' =>
      match radix_digit R c with
      | Some d => parse_digits R s' (Some (default 0 acc * R + d))
      | None => acc
      end
  end.

Definition strip_hex_prefix (s : string) : option string :=
  match s with
  | String "0" (String "x" s') => Some s'
  | String "0" (String "X" s') => Some s'
  | _ => None
  end.

Definition parseInt (str : string) (radix : Z) : option Z :=
  let S0 := trimStart str in
  let '(sign, S1) :=
    match S0 with
    | String "-" s' => (-1, s')
    | String "+" s' => (1, s')
    | _ => (1, S0)
    end in
  if negb (radix =? 0) && ((radix <? 2) || (36 <? radix)) then None
  else
    let '(R, S2) :=
      if (radix =? 0) || (radix =? 16) then
        match strip_hex_prefix S1 with
        | Some s' => (16, s')
        | None => (if radix =? 0 then 10 else radix, S1)
        end
      else (radix, S1) in
    match parse_digits R S2 None with
    | Some m => Some (sign * m)
    | None => None
    end.

(** ** The decoder *)

(** [charToDigit(ch)], for a one code unit string [ch].  The comparisons
    [ch >= '0'] and the like compare code units. *)
Definition charToDigit (ch : ascii) : result Z :=
  let ch := toLowerCase_char ch in
  if (code "0" <=? code ch) && (code ch <=? code "9") then
    OK (code ch - code "0")
  else if (code "a" <=? code ch) && (code ch <=? code "z") then
    OK (10 + (code ch - code "a"))
  else Err (Err_InvalidDigitCharacter ch).

(** The [for] loop of [decodeBigInt] over the code units of [s], from the
    accumulator [acc]. *)
Fixpoint decode_loop (baseInt : Z) (s : string) (acc : Z) : result Z :=
  match s with
  | EmptyString => OK acc
  | String c s' =>
      let* d := charToDigit c in
      if baseInt <=? d then Err (Err_DigitNotValid c baseInt)
      else decode_loop baseInt s' (acc * baseInt + d)
  end.

Definition decodeBigInt (baseStr valueStr : string) : result Z :=
  match parseInt baseStr 10 with
  | None => Err (Err_InvalidBase baseStr)
  | Some baseInt =>
      if (baseInt <? 2) || (36 <? baseInt) then Err (Err_InvalidBase baseStr)
      else
        let s := toLowerCase (trim valueStr) in
        match s with
        | EmptyString => Err Err_EmptyValueString
        | String c0 rest =>
            let sign_present := (Ascii.eqb c0 "+") || (Ascii.eqb c0 "-") in
            let negative := sign_present && Ascii.eqb c0 "-" in
            let s := if sign_present then rest else s in
            if sign_present && (String.length s =? 0)%nat then Err Err_OnlySign
            else
              let* acc := decode_loop baseInt s 0 in
              OK (if negative then - acc else acc)
        end
  end.

(** ** The synthesizer *)

(** [a[i]] where the element is used in BigInt arithmetic: past the end the
    read gives [undefined] and the arithmetic raises a TypeError. *)
Definition get (a : list Z) (i : nat) : result Z :=
  match a !! i with
  | Some v => OK v
  | None => Err Err_TypeError
  end.

(** [a[i] += v] *)
Definition add_assign (a : list Z) (i : nat) (v : Z) : result (list Z) :=
  let* x := get a i in
  OK (<[i := x + v]> a).

(** The inner [for] loop of [buildPolynomialFromRoots]: [todo] iterations
    are left, starting at index [i]. *)
Fixpoint expand_loop (r : Z) (coeffs : list Z) (todo i : nat)
    (newCoeffs : list Z) : result (list Z) :=
  match todo with
  | O => OK newCoeffs
  | S todo' =>
      let* ci := get coeffs i in
      let* newCoeffs := add_assign newCoeffs i (- r * ci) in
      let* ci := get coeffs i in
      let* newCoeffs := add_assign newCoeffs (i + 1) ci in
      expand_loop r coeffs todo' (S i) newCoeffs
  end.

(** One turn of the outer loop: the new coefficient array for the root [r]. *)
Definition expand (r : Z) (coeffs : list Z) : result (list Z) :=
  let newCoeffs := replicate (length coeffs + 1) 0 in
  expand_loop r coeffs (length coeffs) 0 newCoeffs.

Fixpoint build_loop (roots : list Z) (coeffs : list Z) : result (list Z) :=
  match roots with
  | [] => OK coeffs
  | r :: roots' =>
      let* newCoeffs := expand r coeffs in
      build_loop roots' newCoeffs
  end.

Definition buildPolynomialFromRoots (roots : list Z) : result (list Z) :=
  build_loop roots [1].

(** ** One test case *)

(** An entry [{base, value}] of a test case.  [entry_base] is the string
    that [parseInt] sees, that is [ToString] of the field (a JSON number 16
    is seen as "16"); [entry_value] is a string, as [.trim()] needs. *)
Record entry : Type := mk_entry {
  entry_base : string;
  entry_value : string
}.

(** A test case object: [keys] holds [(n, k)] when [keys.n] and [keys.k] are
    both numbers (integers here), and [entries] the properties of the object
    that hold an entry, by property name. *)
Record testcase : Type := mk_testcase {
  keys : option (Z * Z);
  entries : gmap string entry
}.

(** The record [processSingleTestCase] returns.  The script also prints a
    summary with [console.log]; that output is not part of the embedding. *)
Record summary : Type := mk_summary {
  sum_n : Z;
  sum_k : Z;
  sum_degree : Z;
  usedRoots : list string;
  coeffs_low_to_high : list string;
  coeffs_high_to_low : list string;
  constant_c : string
}.

(** [String(i)] of an integer and [toString()] of a BigInt: decimal text. *)
Definition toString (z : Z) : string := pretty z.

(** [a.slice(0, e)] for an integer [e]: a negative [e] counts from the end. *)
Definition slice0 {A : Type} (a : list A) (e : Z) : list A :=
  let len := Z.of_nat (length a) in
  let k := if e <? 0 then Z.max (len + e) 0 else Z.min e len in
  take (Z.to_nat k) a.

(** The loop [for (let i = 1; i <= n; i++)]: [todo] iterations are left and
    the next key is [i]. *)
Fixpoint collect_roots (tc : testcase) (todo : nat) (i : Z) (roots : list Z)
    : result (list Z) :=
  match todo with
  | O => OK roots
  | S todo' =>
      let key := toString i in
      match entries tc !! key with
      | Some e =>
          let* decoded := decodeBigInt (entry_base e) (entry_value e) in
          collect_roots tc todo' (i + 1) (roots ++ [decoded])
      | None => collect_roots tc todo' (i + 1) roots
      end
  end.

Definition processSingleTestCase (tc : testcase) (idx : Z) : result summary :=
  match keys tc with
  | None => Err (Err_MissingKeys idx)
  | Some (n, k) =>
      let degree := k - 1 in
      let* roots := collect_roots tc (Z.to_nat n) 1 [] in
      if Z.of_nat (length roots) <? degree then
        Err (Err_NotEnoughRoots idx degree (Z.of_nat (length roots)))
      else
        let used := slice0 roots degree in
        let* coeffsLowToHigh := buildPolynomialFromRoots used in
        let coeffsHighToLow := rev coeffsLowToHigh in
        let* c0 := get coeffsLowToHigh 0 in
        OK {| sum_n := n; sum_k := k; sum_degree := degree;
              usedRoots := map toString used;
              coeffs_low_to_high := map toString coeffsLowToHigh;
              coeffs_high_to_low := map toString coeffsHighToLow;
              constant_c := toString c0 |}
  end.

(** The candidate entries of a test case: the entries present under the keys
    "1" .. "n", in ascending key order. *)
Definition candidates (tc : testcase) (n : Z) : list entry :=
  omap (fun i => entries tc !! toString i) (seqZ 1 n).

Definition decode_entry (e : entry) : result Z :=
  decodeBigInt (entry_base e) (entry_value e).

Definition case_D : testcase :=
  mk_testcase (Some (3, 4))
    (<["1" := mk_entry "10" "2"]>
       (<["2" := mk_entry "2" "11"]> (<["3" := mk_entry "16" "5"]> ∅))).

(** ** The synthesizer over a store of arrays

    The same function with its arrays as objects in a store, so that what
    the call writes, and to which object, is explicit.  [roots], [coeffs]
    and [newCoeffs] are references; an element is a BigInt, an immutable
    value.  No statement of the function changes the length of an array (an
    update [a[i] += v] past the end raises before it writes), so each loop
    bound is read once, on entry; the elements are read from the store at
    every use. *)
Module Heap.

Definition loc : Type := positive.

Abbreviation store := (gmap positive (list Z)).

(** [new Array(...)] and array literals: a location not yet in use. *)
Definition next_loc (h : store) : loc := fresh (dom h : gset positive).

Definition alloc (h : store) (a : list Z) : store * loc :=
  let l := next_loc h in (<[l := a]> h, l).

Definition length_of (h : store) (l : loc) : result nat :=
  match h !! l with
  | Some a => OK (length a)
  | None => Err Err_TypeError
  end.

Definition read (h : store) (l : loc) (i : nat) : result Z :=
  match h !! l with
  | Some a => get a i
  | None => Err Err_TypeError
  end.

(** [l[i] += v], in place. *)
Definition add_assign_at (h : store) (l : loc) (i : nat) (v : Z) : result store :=
  match h !! l with
  | Some a =>
      let* a' := add_assign a i v in
      OK (<[l := a']> h)
  | None => Err Err_TypeError
  end.

Fixpoint expand_loop (h : store) (r : Z) (coeffs newCoeffs : loc)
    (todo i : nat) : result store :=
  match todo with
  | O => OK h
  | S todo' =>
      let* ci := read h coeffs i in
      let* h := add_assign_at h newCoeffs i (- r * ci) in
      let* ci := read h coeffs i in
      let* h := add_assign_at h newCoeffs (i + 1) ci in
      expand_loop h r coeffs newCoeffs todo' (S i)
  end.

Definition expand (h : store) (r : Z) (coeffs : loc) : result (store * loc) :=
  let* len := length_of h coeffs in
  let '(h, newCoeffs) := alloc h (replicate (len + 1) 0) in
  let* h := expand_loop h r coeffs newCoeffs len 0 in
  OK (h, newCoeffs).

(** [for (const r of roots)]: the array iterator is at index [idx]. *)
Fixpoint build_loop (h : store) (roots : loc) (todo idx : nat) (coeffs : loc)
    : result (store * loc) :=
  match todo with
  | O => OK (h, coeffs)
  | S todo' =>
      let* r := read h roots idx in
      let* hc := expand h r coeffs in
      build_loop (fst hc) roots todo' (S idx) (snd hc)
  end.

Definition buildPolynomialFromRoots (h : store) (roots : loc)
    : result (store * loc) :=
  let* len := length_of h roots in
  let '(h, coeffs) := alloc h [1] in
  build_loop h roots len 0 coeffs.

End Heap.

(** ** The specification's reference notions *)

(** Digit values as the specification gives them: 0-9 are 0..9 and a-z,
    in either case, are 10..35. *)
Definition spec_digit_value (c : ascii) : option Z :=
  let n := code c in
  if (code "0" <=? n) && (n <=? code "9") then Some (n - code "0")
  else if (code "a" <=? n) && (n <=? code "z") then Some (n - code "a" + 10)
  else if (code "A" <=? n) && (n <=? code "Z") then Some (n - code "A" + 10)
  else None.

(** The positional value of a digit string: the fold
    [acc := acc * b + digit_value] from 0, most significant digit first. *)
Definition spec_positional_value (b : Z) (digits : string) : Z :=
  fold_left (fun acc c => acc * b + default 0 (spec_digit_value c))
            (list_ascii_of_string digits) 0.

(** A non-empty string of digits, each of them valid for the base [b]. *)
Definition valid_digit b (c : ascii) : bool :=
  match spec_digit_value c with
  | Some d => d <? b
  | None => false
  end.

Definition valid_digits (b : Z) (digits : string) : bool :=
  negb (String.eqb digits "") &&
  forallb (valid_digit b) (list_ascii_of_string digits).

(** A non-empty string of characters among 0-9, a-z and A-Z. *)
Definition digit_string (s : string) : bool := valid_digits 36 s.

(** The optional sign of a digit string. *)
Inductive sign : Type := NoSign | Plus | Minus.

Definition sign_text (sg : sign) : string :=
  match sg with NoSign => "" | Plus => "+" | Minus => "-" end.

Definition apply_sign (sg : sign) (v : Z) : Z :=
  match sg with Minus => - v | _ => v end.

(** A string is signed when its first character, once trimmed, is a sign. *)
Definition has_sign (s : string) : bool :=
  match trim s with
  | String c _ => Ascii.eqb c "+" || Ascii.eqb c "-"
  | EmptyString => false
  end.

Definition starts_with_white_space (s : string) : bool :=
  match s with
  | String c _ => isWhiteSpace c
  | EmptyString => false
  end.

(** [k] characters '0'. *)
Fixpoint zeros (k : nat) : string :=
  match k with
  | O => ""
  | S k' => String "0" (zeros k')
  end.

(** The product of the roots, 1 for none. *)
Definition product (rs : list Z) : Z := fold_right Z.mul 1 rs.

(** A result that fails with an error of the kind [k]. *)
Definition fails_with {A : Type} (r : result A) (k : error_kind) : Prop :=
  match r with
  | Err e => kind_of e = k
  | OK _ => False
  end.

(** The closed form of one expansion step: the coefficient of x^j in
    (x - r) * P is  -r * p_j + p_(j-1). *)
Definition linear_coeff (r : Z) (p : list Z) (j : nat) : Z :=
  - r * nth j p 0 + match j with O => 0 | S j' => nth j' p 0 end.

Definition times_linear (r : Z) (p : list Z) : list Z :=
  map (linear_coeff r p) (seq 0 (S (length p))).

(** The coefficients after all the roots: the closed form of the outer loop. *)
Definition expansion (roots : list Z) (p : list Z) : list Z :=
  fold_left (fun q r => times_linear r q) roots p.

(** What the inner loop has accumulated at index [j] once the indices below
    [i] are done. *)
Definition partial_coeff (r : Z) (p : list Z) (i j : nat) : Z :=
  (if (j <? i)%nat then - r * nth j p 0 else 0) +
  match j with
  | O => 0
  | S j' => if (j' <? i)%nat then nth j' p 0 else 0
  end.

(** Decoding a list of entries in order, up to the first that fails. *)
Fixpoint decode_all (es : list entry) : result (list Z) :=
  match es with
  | [] => OK []
  | e :: es' =>
      let* d := decode_entry e in
      let* ds := decode_all es' in
      OK (d :: ds)
  end.

Definition decodes (e : entry) : Prop := is_ok (decode_entry e) = true.

(** The values of entries that decode. *)
Definition values (es : list entry) : list Z :=
  map (fun e => match decode_entry e with OK v => v | Err _ => 0 end) es.

(** Two cases with n = 2 and k = 2, so of degree 1, that differ in the
    entry "2" only, an entry beyond the first [degree] candidates. *)
Definition case_extra_good : testcase :=
  mk_testcase (Some (2, 2))
    (<["1" := mk_entry "10" "4"]> (<["2" := mk_entry "10" "5"]> ∅)).

Definition case_extra_bad : testcase :=
  mk_testcase (Some (2, 2))
    (<["1" := mk_entry "10" "4"]> (<["2" := mk_entry "10" "5!"]> ∅)).

Definition case_extra_other : testcase :=
  mk_testcase (Some (2, 2))
    (<["1" := mk_entry "10" "4"]> (<["2" := mk_entry "16" "-fF"]> ∅)).

(** The record returned for a case that uses the roots [used]. *)
Definition summary_for (n k : Z) (used : list Z) : summary :=
  let cs := expansion used [1] in
  {| sum_n := n; sum_k := k; sum_degree := k - 1;
     usedRoots := map toString used;
     coeffs_low_to_high := map toString cs;
     coeffs_high_to_low := map toString (rev cs);
     constant_c := toString (nth 0 cs 0) |}.

(** The base specifier [baseStr] is read as the base [b], one of 2..36. *)
Definition denotes_base (baseStr : string) (b : Z) : Prop :=
  parseInt baseStr 10 = Some b /\ 2 <= b <= 36.

(** ** The batch loop of [main]

    [main] reads and parses [input.json], runs the loop below over the array
    [doc.testcases], and writes [out] to [computed_coeffs.json].  The file
    system and JSON text are not part of the embedding; the loop is. *)

(** The property name ['testcase' + (i+1)]. *)
Definition case_key (i : Z) : string := "testcase" +:+ toString (i + 1).

(** The loop [for (let i = 0; i < tests.length; i++)] from index [i] on,
    over the cases still to run.  [out] is the object being filled; the
    second component collects what the [catch] branch reports, the case
    number [i+1] with the error caught, latest first. *)
Fixpoint run_cases (tests : list testcase) (i : Z)
    (out : gmap string summary) (log : list (Z * error))
    : gmap string summary * list (Z * error) :=
  match tests with
  | [] => (out, log)
  | tc :: tests' =>
      match processSingleTestCase tc i with
      | OK s => run_cases tests' (i + 1) (<[case_key i := s]> out) log
      | Err e => run_cases tests' (i + 1) out ((i + 1, e) :: log)
      end
  end.

(** [main] from the parsed array on: [None] is [process.exit(1)], taken
    when there is no test case. *)
Definition main_cases (tests : list testcase)
    : option (gmap string summary * list (Z * error)) :=
  if (length tests =? 0)%nat then None
  else Some (run_cases tests 0 ∅ []).

(** ** Further reference notions *)

(** A string of white space only. *)
Definition white_space (s : string) : bool :=
  forallb isWhiteSpace (list_ascii_of_string s).

(** A string of decimal digits only. *)
Definition decimal_digit (c : ascii) : bool :=
  (code "0" <=? code c) && (code c <=? code "9").

Definition decimal_digits (s : string) : bool :=
  forallb decimal_digit (list_ascii_of_string s).

(** The value of the polynomial with the coefficients [p], low to high,
    at [x] (Horner's rule). *)
Definition eval (p : list Z) (x : Z) : Z :=
  fold_right (fun c acc => c + x * acc) 0 p.

(** (x - r_1) * ... * (x - r_m) *)
Definition linear_factors (roots : list Z) (x : Z) : Z :=
  fold_right (fun r acc => (x - r) * acc) 1 roots.

Definition sum (rs : list Z) : Z := fold_right Z.add 0 rs.

(** The expansion step by recursion on the coefficients: [prev] is the
    coefficient one index below. *)
Fixpoint shift_scale (r prev : Z) (p : list Z) : list Z :=
  match p with
  | [] => [prev]
  | c :: p' => (- r * c + prev) :: shift_scale r c p'
  end.

(** The error the loop raises at a character that is no valid digit. *)
Definition digit_error (b : Z) (c : ascii) : error :=
  match spec_digit_value c with
  | Some _ => Err_DigitNotValid (toLowerCase_char c) b
  | None => Err_InvalidDigitCharacter (toLowerCase_char c)
  end.

(** The lower-case character of the digit value [d]: "0".."9", "a".."z". *)
Definition digit_char (d : Z) : ascii :=
  if d <? 10 then chr (code "0" + d) else chr (code "a" + (d - 10)).

(** A string that does not go on with a decimal digit. *)
Definition no_digit_ahead (tail : string) : bool :=
  match tail with
  | String c _ => negb (decimal_digit c)
  | EmptyString => true
  end.

(** A batch of two cases, the second of which fails. *)
Definition batch_example : list testcase := [case_extra_good; case_extra_bad].

(** * Properties *)

(** ** Concrete scenarios *)

Example decode_hex : decodeBigInt "16" "-ff" = OK (-255).
Proof. reflexivity. Qed.

Example decode_padded : decodeBigInt " 16px" "  +Ff  " = OK 255.
Proof. reflexivity. Qed.

Example scenario_A : buildPolynomialFromRoots [4; 5] = OK [20; -9; 1].
Proof. reflexivity. Qed.

Example scenario_D : buildPolynomialFromRoots [2; 3; 5] = OK [-30; 31; -10; 1].
Proof. reflexivity. Qed.

Example scenario_D_case :
  processSingleTestCase case_D 0 =
  OK {| sum_n := 3; sum_k := 4; sum_degree := 3;
        usedRoots := ["2"; "3"; "5"];
        coeffs_low_to_high := ["-30"; "31"; "-10"; "1"];
        coeffs_high_to_low := ["1"; "-10"; "31"; "-30"];
        constant_c := "-30" |}.
Proof. vm_compute. reflexivity. Qed.

(** ** Code units *)

(** Case analysis over the 256 code units of the embedding. *)
Ltac each_code_unit c :=
  destruct c as [[] [] [] [] [] [] [] []]; vm_compute.

Lemma charToDigit_spec (c : ascii) :
  charToDigit c =
  match spec_digit_value c with
  | Some d => OK d
  | None => Err (Err_InvalidDigitCharacter (toLowerCase_char c))
  end.
Proof. each_code_unit c; reflexivity. Qed.

Lemma spec_digit_value_lower (c : ascii) :
  spec_digit_value (toLowerCase_char c) = spec_digit_value c.
Proof. each_code_unit c; reflexivity. Qed.

Lemma lower_is_plus (c : ascii) :
  Ascii.eqb (toLowerCase_char c) "+" = Ascii.eqb c "+".
Proof. each_code_unit c; reflexivity. Qed.

Lemma lower_is_minus (c : ascii) :
  Ascii.eqb (toLowerCase_char c) "-" = Ascii.eqb c "-".
Proof. each_code_unit c; reflexivity. Qed.

Lemma digit_not_white_space (c : ascii) :
  isWhiteSpace c = true -> spec_digit_value c = None.
Proof. each_code_unit c; intros H; first [reflexivity | discriminate H]. Qed.

Lemma digit_not_plus (c : ascii) :
  Ascii.eqb c "+" = true -> spec_digit_value c = None.
Proof. each_code_unit c; intros H; first [reflexivity | discriminate H]. Qed.

Lemma digit_not_minus (c : ascii) :
  Ascii.eqb c "-" = true -> spec_digit_value c = None.
Proof. each_code_unit c; intros H; first [reflexivity | discriminate H]. Qed.

Lemma spec_digit_value_range (c : ascii) (d : Z) :
  spec_digit_value c = Some d -> 0 <= d < 36.
Proof.
  destruct c as [[] [] [] [] [] [] [] []]; intros H; vm_compute in H;
    first [discriminate H | injection H as <-; lia].
Qed.

Lemma valid_digit_value (b : Z) (c : ascii) :
  valid_digit b c = true ->
  exists d, spec_digit_value c = Some d /\ 0 <= d < b.
Proof.
  unfold valid_digit. destruct (spec_digit_value c) as [d|] eqn:E; [|discriminate].
  intros H. exists d. split; [reflexivity|].
  apply spec_digit_value_range in E. lia.
Qed.

(** ** Trimming and lower-casing *)

Lemma trimStart_id (s : string) :
  starts_with_white_space s = false -> trimStart s = s.
Proof. destruct s as [|c s]; simpl; [reflexivity|]. intros ->. reflexivity. Qed.

Lemma trimEnd_cons (c : ascii) (s : string) :
  isWhiteSpace c = false -> trimEnd (String c s) = String c (trimEnd s).
Proof. intros H. simpl. rewrite H. destruct (trimEnd s); reflexivity. Qed.

Lemma trim_cons (c : ascii) (s : string) :
  isWhiteSpace c = false -> trim (String c s) = String c (trimEnd s).
Proof.
  intros H. unfold trim. rewrite trimStart_id by exact H.
  apply trimEnd_cons, H.
Qed.

Lemma trimEnd_digits (b : Z) (s : string) :
  forallb (valid_digit b) (list_ascii_of_string s) = true -> trimEnd s = s.
Proof.
  induction s as [|c s IH]; simpl; [reflexivity|].
  intros H. apply andb_prop in H as [Hc Hs].
  rewrite (IH Hs).
  assert (isWhiteSpace c = false) as ->.
  { destruct (isWhiteSpace c) eqn:E; [|reflexivity].
    apply digit_not_white_space in E. unfold valid_digit in Hc.
    rewrite E in Hc. discriminate. }
  destruct s; reflexivity.
Qed.

Lemma toLowerCase_app (s t : string) :
  toLowerCase (s ++ t) = (toLowerCase s ++ toLowerCase t)%string.
Proof.
  induction s as [|c s IH]; [reflexivity|].
  change (String (toLowerCase_char c) (toLowerCase (s ++ t)) =
          String (toLowerCase_char c) (toLowerCase s ++ toLowerCase t)).
  now rewrite IH.
Qed.

Lemma toLowerCase_zeros (k : nat) : toLowerCase (zeros k) = zeros k.
Proof. induction k as [|k IH]; simpl; [reflexivity|]. now rewrite IH. Qed.

(** ** The decoder, once the base is accepted *)

Lemma decodeBigInt_unsigned (baseStr v : string) (b : Z) (c : ascii) (rest : string) :
  denotes_base baseStr b ->
  toLowerCase (trim v) = String c rest ->
  Ascii.eqb c "+" = false -> Ascii.eqb c "-" = false ->
  decodeBigInt baseStr v = decode_loop b (String c rest) 0.
Proof.
  intros [Hp Hb] Hs Hplus Hminus. unfold decodeBigInt.
  rewrite Hp, Hs, Hplus, Hminus.
  replace ((b <? 2) || (36 <? b)) with false by lia.
  cbn [orb andb]. destruct (decode_loop b (String c rest) 0); reflexivity.
Qed.

Lemma decodeBigInt_signed (baseStr v : string) (b : Z) (sg : sign) (c : ascii)
    (rest : string) :
  denotes_base baseStr b ->
  sg <> NoSign ->
  toLowerCase (trim v) = (sign_text sg ++ String c rest)%string ->
  decodeBigInt baseStr v =
  let* acc := decode_loop b (String c rest) 0 in OK (apply_sign sg acc).
Proof.
  intros [Hp Hb] Hsg Hs. unfold decodeBigInt. rewrite Hp.
  replace ((b <? 2) || (36 <? b)) with false by lia.
  destruct sg; [congruence| |]; simpl in Hs; rewrite Hs; reflexivity.
Qed.

Lemma decodeBigInt_invalid_base (baseStr v : string) :
  (forall b, ~ denotes_base baseStr b) ->
  decodeBigInt baseStr v = Err (Err_InvalidBase baseStr).
Proof.
  intros H. unfold decodeBigInt. destruct (parseInt baseStr 10) as [b|] eqn:E;
    [|reflexivity].
  destruct ((b <? 2) || (36 <? b)) eqn:Eb; [reflexivity|].
  exfalso. apply (H b). split; [exact E | lia].
Qed.

(** The loop reads a valid digit string as its positional value. *)
Lemma decode_loop_valid (b : Z) (ds : string) (acc : Z) :
  forallb (valid_digit b) (list_ascii_of_string ds) = true ->
  decode_loop b (toLowerCase ds) acc =
  OK (fold_left (fun a c => a * b + default 0 (spec_digit_value c))
                (list_ascii_of_string ds) acc).
Proof.
  revert acc. induction ds as [|c ds IH]; intros acc H; simpl; [reflexivity|].
  simpl in H. apply andb_prop in H as [Hc Hs].
  apply valid_digit_value in Hc as (d & Hd & Hr).
  rewrite charToDigit_spec, spec_digit_value_lower, Hd. simpl.
  replace (b <=? d) with false by lia.
  apply IH, Hs.
Qed.

Lemma decodeBigInt_ok_base (baseStr v : string) (x : Z) :
  decodeBigInt baseStr v = OK x -> exists b, denotes_base baseStr b.
Proof.
  unfold decodeBigInt. destruct (parseInt baseStr 10) as [b|] eqn:E; [|discriminate].
  destruct ((b <? 2) || (36 <? b)) eqn:Eb; [discriminate|].
  intros _. exists b. split; [exact E | lia].
Qed.

(** A string that starts with a digit and has no white space at its end,
    behind an optional sign. *)
Lemma decodeBigInt_sign_digits (baseStr : string) (b : Z) (sg : sign)
    (c : ascii) (t : string) :
  denotes_base baseStr b ->
  is_Some (spec_digit_value c) ->
  trimEnd (String c t) = String c t ->
  decodeBigInt baseStr (sign_text sg ++ String c t) =
  let* acc := decode_loop b (toLowerCase (String c t)) 0 in OK (apply_sign sg acc).
Proof.
  intros Hb [d Hd] Ht.
  assert (Hws : isWhiteSpace c = false).
  { destruct (isWhiteSpace c) eqn:E; [|reflexivity].
    apply digit_not_white_space in E. congruence. }
  assert (Hplus : Ascii.eqb c "+" = false).
  { destruct (Ascii.eqb c "+") eqn:E; [|reflexivity].
    apply digit_not_plus in E. congruence. }
  assert (Hminus : Ascii.eqb c "-" = false).
  { destruct (Ascii.eqb c "-") eqn:E; [|reflexivity].
    apply digit_not_minus in E. congruence. }
  destruct sg; cbv [sign_text String.append].
  - rewrite (decodeBigInt_unsigned baseStr _ b (toLowerCase_char c) (toLowerCase t)).
    + cbn [toLowerCase apply_sign].
      destruct (decode_loop b _ 0); reflexivity.
    + exact Hb.
    + rewrite trim_cons by exact Hws.
      rewrite trimEnd_cons in Ht by exact Hws. injection Ht as ->. reflexivity.
    + now rewrite lower_is_plus.
    + now rewrite lower_is_minus.
  - apply (decodeBigInt_signed baseStr _ b Plus); [exact Hb | discriminate |].
    rewrite trim_cons by reflexivity. rewrite Ht. reflexivity.
  - apply (decodeBigInt_signed baseStr _ b Minus); [exact Hb | discriminate |].
    rewrite trim_cons by reflexivity. rewrite Ht. reflexivity.
Qed.

Lemma append_cons (c : ascii) (s t : string) :
  (String c s ++ t)%string = String c (s ++ t).
Proof. reflexivity. Qed.

Lemma decode_loop_zeros (b : Z) (k : nat) (t : string) :
  2 <= b -> decode_loop b (zeros k ++ t) 0 = decode_loop b t 0.
Proof.
  intros Hb. induction k as [|k IH]; [reflexivity|].
  cbn [zeros]. rewrite append_cons. cbn [decode_loop].
  change (charToDigit "0") with (OK 0). cbn [bind].
  replace (b <=? 0) with false by lia.
  replace (0 * b + 0) with 0 by lia. exact IH.
Qed.

Lemma trimEnd_zeros (k : nat) (t : string) :
  trimEnd (zeros k ++ t) = (zeros k ++ trimEnd t)%string.
Proof.
  induction k as [|k IH]; [reflexivity|].
  cbn [zeros]. rewrite !append_cons, trimEnd_cons by reflexivity.
  now rewrite IH.
Qed.

Lemma append_empty_r (s : string) : (s ++ "")%string = s.
Proof. induction s as [|c s IH]; [reflexivity|]. now rewrite append_cons, IH. Qed.

(** ** Claims about the decoder *)

(** C3. For a base b in 2..36 and a digit string made of an optional sign
    and one or more digits valid for b, [decodeBigInt] returns the exact
    signed positional value: the fold acc := acc * b + digit_value from 0,
    most significant digit first, negated exactly when the sign is '-'. *)
Theorem decode_positional_value (baseStr : string) (b : Z) (sg : sign) (ds : string) :
  denotes_base baseStr b ->
  valid_digits b ds = true ->
  decodeBigInt baseStr (sign_text sg ++ ds) =
  OK (apply_sign sg (spec_positional_value b ds)).
Proof.
  intros Hb Hds. unfold valid_digits in Hds. apply andb_prop in Hds as [Hne Hall].
  destruct ds as [|c ds]; [discriminate Hne|].
  assert (Hc : is_Some (spec_digit_value c)).
  { simpl in Hall. apply andb_prop in Hall as [Hc _].
    apply valid_digit_value in Hc as (d & Hd & _). now exists d. }
  rewrite (decodeBigInt_sign_digits baseStr b sg c ds Hb Hc (trimEnd_digits b _ Hall)).
  rewrite (decode_loop_valid b (String c ds) 0 Hall). reflexivity.
Qed.

Lemma decode_positional_value_witness :
  decodeBigInt "16" "-fF" = OK (- 255).
Proof.
  apply (decode_positional_value "16" 16 Minus "fF").
  - split; [reflexivity | lia].
  - reflexivity.
Defined.

(** A base given as a number 2..36 is read as itself. *)
Lemma number_denotes_base (b : Z) : 2 <= b <= 36 -> denotes_base (toString b) b.
Proof.
  intros Hb. split; [|exact Hb].
  assert (H : Forall (fun z => parseInt (toString z) 10 = Some z) (seqZ 2 35)).
  { repeat constructor. }
  rewrite Forall_forall in H. apply H. apply elem_of_seqZ. lia.
Qed.

(** C6. Boundary rejection: the bases 1 and 37 fail with InvalidBase, the
    empty string and the bare sign fail with EmptyValue, and the digit 2 in
    base 2 fails with DigitOutOfRange. *)
Theorem boundary_rejection :
  fails_with (decodeBigInt (toString 1) "0") InvalidBase /\
  fails_with (decodeBigInt (toString 37) "0") InvalidBase /\
  fails_with (decodeBigInt (toString 10) "") EmptyValue /\
  fails_with (decodeBigInt (toString 10) "+") EmptyValue /\
  fails_with (decodeBigInt (toString 2) "2") DigitOutOfRange.
Proof. repeat split; vm_compute; reflexivity. Qed.

(** The errors of the five calls, as raised. *)
Lemma boundary_rejection_errors :
  decodeBigInt "1" "0" = Err (Err_InvalidBase "1") /\
  decodeBigInt "37" "0" = Err (Err_InvalidBase "37") /\
  decodeBigInt "10" "" = Err Err_EmptyValueString /\
  decodeBigInt "10" "+" = Err Err_OnlySign /\
  decodeBigInt "2" "2" = Err (Err_DigitNotValid "2" 2).
Proof. repeat split; reflexivity. Qed.

(** *** The base guard *)

Lemma decode_loop_not_InvalidBase (b : Z) (s : string) (acc : Z) (t : string) :
  decode_loop b s acc <> Err (Err_InvalidBase t).
Proof.
  revert acc. induction s as [|c s IH]; intros acc; simpl; [discriminate|].
  rewrite charToDigit_spec. destruct (spec_digit_value c) as [d|]; simpl;
    [|discriminate].
  destruct (b <=? d); [discriminate | apply IH].
Qed.

(** The guard of [decodeBigInt] rejects a base specifier exactly when the
    integer that [parseInt] reads off its front is missing or outside 2..36. *)
Lemma base_guard (baseStr v : string) :
  decodeBigInt baseStr v = Err (Err_InvalidBase baseStr) <->
  (forall b, ~ denotes_base baseStr b).
Proof.
  split; [|apply decodeBigInt_invalid_base].
  intros H b [Hp Hb]. unfold decodeBigInt in H. rewrite Hp in H.
  replace ((b <? 2) || (36 <? b)) with false in H by lia.
  destruct (toLowerCase (trim v)) as [|c0 rest]; [discriminate|].
  destruct (((c0 =? "+")%char || (c0 =? "-")%char) && _); [discriminate|].
  match type of H with
  | bind (decode_loop ?b ?s ?a) _ = _ =>
      pose proof (decode_loop_not_InvalidBase b s a baseStr) as Hl;
      destruct (decode_loop b s a)
  end; cbn [bind] in H; [discriminate | congruence].
Qed.

(** C2 (fails on the code). The base specifier "2.5" is not an integer in
    2..36, yet [decodeBigInt] does not raise InvalidBase: [parseInt] reads
    the 2 and stops at the point, and the value is decoded in base 2. *)
Theorem base_2_5_accepted :
  parseInt "2.5" 10 = Some 2 /\
  decodeBigInt "2.5" "101" = OK 5 /\
  decodeBigInt "10abc" "42" = OK 42 /\
  decodeBigInt "36.9" "z" = OK 35.
Proof. repeat split; reflexivity. Qed.

(** *** Sign symmetry *)

(** The decoder trims before it looks for the sign, and not after it: a
    string with white space in front decodes, but not behind a '-'. *)
Example white_space_behind_sign :
  decodeBigInt "10" " 12" = OK 12 /\
  decodeBigInt "10" "- 12" = Err (Err_InvalidDigitCharacter " ").
Proof. split; reflexivity. Qed.

(** Any string with no sign and no white space in front that decodes:
    behind a '-' it decodes to the negated value. *)
Lemma negate_unsigned (baseStr s : string) (v : Z) :
  starts_with_white_space s = false ->
  has_sign s = false ->
  decodeBigInt baseStr s = OK v ->
  decodeBigInt baseStr ("-" ++ s) = OK (- v).
Proof.
  intros Hws Hsg Hdec.
  destruct (decodeBigInt_ok_base _ _ _ Hdec) as [b Hb].
  destruct s as [|c s].
  { destruct Hb as [Hp Hr]. unfold decodeBigInt in Hdec. rewrite Hp in Hdec.
    cbn in Hdec. destruct ((b <? 2) || (36 <? b)); discriminate. }
  simpl in Hws. unfold has_sign in Hsg. rewrite trim_cons in Hsg by exact Hws.
  apply orb_false_elim in Hsg as [Hplus Hminus].
  rewrite (decodeBigInt_unsigned baseStr _ b (toLowerCase_char c)
             (toLowerCase (trimEnd s))) in Hdec.
  - rewrite (decodeBigInt_signed baseStr _ b Minus (toLowerCase_char c)
               (toLowerCase (trimEnd s))).
    + rewrite Hdec. reflexivity.
    + exact Hb.
    + discriminate.
    + change ("-" ++ String c s)%string with (String "-" (String c s)).
      rewrite trim_cons by reflexivity.
      rewrite trimEnd_cons by exact Hws. reflexivity.
  - exact Hb.
  - rewrite trim_cons by exact Hws. reflexivity.
  - now rewrite lower_is_plus.
  - now rewrite lower_is_minus.
Qed.

Lemma digit_string_first (s : string) :
  digit_string s = true ->
  starts_with_white_space s = false /\ has_sign s = false.
Proof.
  unfold digit_string, valid_digits. intros H.
  apply andb_prop in H as [Hne Hall].
  destruct s as [|c s]; [discriminate Hne|].
  simpl in Hall. apply andb_prop in Hall as [Hc _].
  apply valid_digit_value in Hc as (d & Hd & _).
  assert (Hws : isWhiteSpace c = false).
  { destruct (isWhiteSpace c) eqn:E; [|reflexivity].
    apply digit_not_white_space in E. congruence. }
  split; [exact Hws|].
  unfold has_sign. rewrite trim_cons by exact Hws.
  destruct (Ascii.eqb c "+") eqn:E1; [apply digit_not_plus in E1; congruence|].
  destruct (Ascii.eqb c "-") eqn:E2; [apply digit_not_minus in E2; congruence|].
  reflexivity.
Qed.

(** Sign symmetry for strings of digit characters, a case of the above. *)
Lemma negate_digit_string (baseStr s : string) (v : Z) :
  digit_string s = true ->
  decodeBigInt baseStr s = OK v ->
  decodeBigInt baseStr ("-" ++ s) = OK (- v).
Proof.
  intros Hs Hdec. destruct (digit_string_first s Hs) as [Hws Hsg].
  now apply negate_unsigned.
Qed.

(** C7 (as stated, fails). A digit string is the value text the decoder is
    given, which it trims.  " 12" has no sign and decodes to 12, but behind
    a '-' its white space is no longer at the front of the text, is not
    trimmed, and is rejected as a digit. *)
Lemma sign_symmetry_counterexample :
  ~ (forall (baseStr s : string) (v : Z),
       has_sign s = false ->
       decodeBigInt baseStr s = OK v ->
       decodeBigInt baseStr ("-" ++ s) = OK (- v)).
Proof.
  intros H. specialize (H "10" " 12" 12 eq_refl eq_refl).
  vm_compute in H. discriminate H.
Qed.

(** C7 (amended). Sign symmetry: for every digit string s that has no sign
    and no white space in front and that decodes, with or without white
    space behind it, "-" ++ s decodes as well, to the negated value. *)
Theorem sign_symmetry (baseStr s : string) (v : Z) :
  starts_with_white_space s = false ->
  has_sign s = false ->
  decodeBigInt baseStr s = OK v ->
  decodeBigInt baseStr ("-" ++ s) = OK (- v).
Proof. intros Hws Hsg Hdec. now apply negate_unsigned. Qed.

Lemma sign_symmetry_witness :
  decodeBigInt "16" ("-" ++ "fF  ") = OK (- 255).
Proof.
  apply (sign_symmetry "16" "fF  " 255); reflexivity.
Defined.

(** *** Leading zeros *)

Lemma decode_loop_only_zeros (b : Z) (k : nat) :
  2 <= b -> decode_loop b (zeros k) 0 = OK 0.
Proof.
  intros Hb. rewrite <- (append_empty_r (zeros k)).
  now rewrite decode_loop_zeros.
Qed.

(** C10. For a valid base, zeros put in front of a digit string do not
    change what it decodes to, and a digit string of zeros only decodes to
    0 with or without a sign: "-0" gives 0, there is no negative zero. *)
Theorem leading_zeros (baseStr : string) (b : Z) (sg : sign) (k : nat) :
  denotes_base baseStr b ->
  (forall s : string,
     digit_string s = true ->
     decodeBigInt baseStr (sign_text sg ++ zeros k ++ s) =
     decodeBigInt baseStr (sign_text sg ++ s)) /\
  decodeBigInt baseStr (sign_text sg ++ zeros (S k)) = OK 0 /\
  decodeBigInt baseStr "-0" = OK 0.
Proof.
  intros Hb. split; [|split].
  - intros s Hs. unfold digit_string, valid_digits in Hs.
    apply andb_prop in Hs as [Hne Hall].
    destruct s as [|c s]; [discriminate Hne|].
    assert (Hc : is_Some (spec_digit_value c)).
    { simpl in Hall. apply andb_prop in Hall as [Hc _].
      apply valid_digit_value in Hc as (d & Hd & _). now exists d. }
    pose proof (trimEnd_digits 36 _ Hall) as Ht.
    destruct k as [|k]; [reflexivity|].
    rewrite (decodeBigInt_sign_digits baseStr b sg c s Hb Hc Ht).
    cbn [zeros]. rewrite append_cons.
    rewrite (decodeBigInt_sign_digits baseStr b sg "0" _ Hb).
    + rewrite <- append_cons. change (String "0" (zeros k)) with (zeros (S k)).
      rewrite toLowerCase_app, toLowerCase_zeros.
      rewrite decode_loop_zeros by (destruct Hb; lia). reflexivity.
    + now exists 0.
    + rewrite <- append_cons. change (String "0" (zeros k)) with (zeros (S k)).
      now rewrite trimEnd_zeros, Ht.
  - cbn [zeros].
    rewrite (decodeBigInt_sign_digits baseStr b sg "0" (zeros k) Hb).
    + change (String "0" (zeros k)) with (zeros (S k)).
      rewrite toLowerCase_zeros, decode_loop_only_zeros by (destruct Hb; lia).
      destruct sg; reflexivity.
    + now exists 0.
    + change (String "0" (zeros k)) with (zeros (S k)).
      rewrite <- (append_empty_r (zeros (S k))) at 1.
      now rewrite trimEnd_zeros, append_empty_r.
  - change "-0"%string with (sign_text Minus ++ String "0" "")%string.
    rewrite (decodeBigInt_sign_digits baseStr b Minus "0" "" Hb).
    + cbn [toLowerCase decode_loop]. change (charToDigit _) with (OK 0).
      cbn [bind]. replace (b <=? 0) with false by (destruct Hb; lia).
      reflexivity.
    + now exists 0.
    + reflexivity.
Qed.

Lemma leading_zeros_witness :
  decodeBigInt "16" ("-" ++ zeros 3 ++ "fF") = decodeBigInt "16" ("-" ++ "fF") /\
  decodeBigInt "16" ("-" ++ zeros 4) = OK 0 /\
  decodeBigInt "16" "-0" = OK 0.
Proof.
  assert (Hb : denotes_base "16" 16) by (split; [reflexivity | lia]).
  destruct (leading_zeros "16" 16 Minus 3 Hb) as (H1 & H2 & H3).
  split; [exact (H1 "fF" eq_refl) | split; [exact H2 | exact H3]].
Defined.

(** ** The synthesizer: arrays *)

Lemma get_nth (a : list Z) (i : nat) :
  (i < length a)%nat -> get a i = OK (nth i a 0).
Proof.
  intros H. unfold get. rewrite nth_lookup.
  destruct (lookup_lt_is_Some_2 a i H) as [x ->]. reflexivity.
Qed.

Lemma add_assign_nth (a : list Z) (i : nat) (v : Z) :
  (i < length a)%nat -> add_assign a i v = OK (<[i := nth i a 0 + v]> a).
Proof. intros H. unfold add_assign. rewrite get_nth by exact H. reflexivity. Qed.

Lemma nth_insert (a : list Z) (i j : nat) (x : Z) :
  (i < length a)%nat ->
  nth j (<[i := x]> a) 0 = if (j =? i)%nat then x else nth j a 0.
Proof.
  intros H. rewrite !nth_lookup.
  destruct (Nat.eqb_spec j i) as [->|Hne].
  - now rewrite list_lookup_insert_eq.
  - rewrite list_lookup_insert_ne by congruence. reflexivity.
Qed.

Lemma nth_replicate_0 (n j : nat) : nth j (replicate n 0) 0 = 0.
Proof.
  rewrite nth_lookup. destruct (replicate n 0 !! j) as [x|] eqn:E; [|reflexivity].
  apply lookup_replicate in E as [-> _]. reflexivity.
Qed.

Lemma partial_coeff_done (r : Z) (p : list Z) (j : nat) :
  partial_coeff r p (length p) j = linear_coeff r p j.
Proof.
  unfold partial_coeff, linear_coeff. f_equal.
  - destruct (Nat.ltb_spec j (length p)); [reflexivity|].
    rewrite nth_overflow by lia. lia.
  - destruct j as [|j']; [reflexivity|].
    destruct (Nat.ltb_spec j' (length p)); [reflexivity|].
    now rewrite nth_overflow by lia.
Qed.

Lemma partial_coeff_step (r : Z) (p : list Z) (i j : nat) :
  partial_coeff r p (S i) j =
  partial_coeff r p i j
  + (if (j =? i)%nat then - r * nth i p 0 else 0)
  + (if (j =? i + 1)%nat then nth i p 0 else 0).
Proof.
  unfold partial_coeff.
  destruct j as [|j'].
  - destruct (Nat.ltb_spec 0 (S i)), (Nat.ltb_spec 0 i), (Nat.eqb_spec 0 i),
      (Nat.eqb_spec 0 (i + 1)); subst; try lia.
  - replace (S j' =? i + 1)%nat with (j' =? i)%nat
      by (destruct (Nat.eqb_spec j' i), (Nat.eqb_spec (S j') (i + 1)); lia).
    destruct (Nat.ltb_spec (S j') (S i)), (Nat.ltb_spec (S j') i),
      (Nat.ltb_spec j' (S i)), (Nat.ltb_spec j' i),
      (Nat.eqb_spec (S j') i), (Nat.eqb_spec j' i);
      subst; try lia.
Qed.

(** The inner loop: from the indices below [i] done to all of them done. *)
Lemma expand_loop_invariant (r : Z) (p : list Z) (todo : nat) :
  forall (i : nat) (nc : list Z),
    (i + todo = length p)%nat ->
    length nc = S (length p) ->
    (forall j, nth j nc 0 = partial_coeff r p i j) ->
    exists nc',
      expand_loop r p todo i nc = OK nc' /\
      length nc' = S (length p) /\
      (forall j, nth j nc' 0 = partial_coeff r p (length p) j).
Proof.
  induction todo as [|todo IH]; intros i nc Hi Hlen Hnc.
  - exists nc. split; [reflexivity|]. split; [exact Hlen|].
    intros j. rewrite Hnc. f_equal. lia.
  - cbn [expand_loop].
    rewrite get_nth by lia. cbn [bind].
    rewrite add_assign_nth by lia. cbn [bind].
    rewrite add_assign_nth by (rewrite length_insert; lia). cbn [bind].
    apply IH.
    + lia.
    + now rewrite !length_insert.
    + intros j. rewrite partial_coeff_step.
      rewrite !nth_insert by (rewrite ?length_insert; lia).
      rewrite <- !Hnc.
      destruct (Nat.eqb_spec j (i + 1)), (Nat.eqb_spec j i),
        (Nat.eqb_spec (i + 1) i); subst; try lia.
Qed.

Lemma times_linear_length (r : Z) (p : list Z) :
  length (times_linear r p) = S (length p).
Proof. unfold times_linear. now rewrite length_map, length_seq. Qed.

Lemma times_linear_nth (r : Z) (p : list Z) (j : nat) :
  nth j (times_linear r p) 0 = linear_coeff r p j.
Proof.
  destruct (Nat.lt_ge_cases j (S (length p))) as [H|H].
  - unfold times_linear.
    rewrite (nth_indep _ 0 (linear_coeff r p 0%nat))
      by now rewrite length_map, length_seq.
    rewrite (map_nth (linear_coeff r p)), seq_nth by exact H. reflexivity.
  - rewrite nth_overflow by (rewrite times_linear_length; lia).
    unfold linear_coeff. destruct j as [|j']; [lia|].
    rewrite !nth_overflow by lia. lia.
Qed.

(** One expansion step never fails and computes (x - r) * P. *)
Lemma expand_times_linear (r : Z) (p : list Z) :
  expand r p = OK (times_linear r p).
Proof.
  unfold expand.
  destruct (expand_loop_invariant r p (length p) 0 (replicate (length p + 1) 0))
    as (nc & -> & Hlen & Hnth).
  - reflexivity.
  - rewrite length_replicate. lia.
  - intros j. rewrite nth_replicate_0. unfold partial_coeff.
    destruct j; reflexivity.
  - f_equal. apply (nth_ext _ _ 0 0).
    + now rewrite times_linear_length.
    + intros j _. now rewrite Hnth, partial_coeff_done, times_linear_nth.
Qed.

Lemma build_loop_expansion (roots p : list Z) :
  build_loop roots p = OK (expansion roots p).
Proof.
  revert p. induction roots as [|r roots IH]; intros p; [reflexivity|].
  cbn [build_loop]. rewrite expand_times_linear. cbn [bind]. apply IH.
Qed.

(** The synthesizer never fails. *)
Lemma buildPolynomialFromRoots_expansion (roots : list Z) :
  buildPolynomialFromRoots roots = OK (expansion roots [1]).
Proof. apply build_loop_expansion. Qed.

(** ** The synthesizer: coefficients *)

Lemma expansion_length (roots p : list Z) :
  length (expansion roots p) = (length roots + length p)%nat.
Proof.
  revert p. induction roots as [|r roots IH]; intros p; [reflexivity|].
  cbn [expansion fold_left]. fold (expansion roots (times_linear r p)).
  rewrite IH, times_linear_length. simpl. lia.
Qed.

(** The coefficient of the highest power is carried over by every step. *)
Lemma expansion_leading (roots p : list Z) :
  p <> [] ->
  nth (length roots + length p - 1) (expansion roots p) 0 =
  nth (length p - 1) p 0.
Proof.
  revert p. induction roots as [|r roots IH]; intros p Hp; [reflexivity|].
  cbn [expansion fold_left]. fold (expansion roots (times_linear r p)).
  assert (Hlen : (0 < length p)%nat) by (destruct p; [congruence | simpl; lia]).
  replace (length (r :: roots) + length p - 1)%nat
    with (length roots + length (times_linear r p) - 1)%nat
    by (rewrite times_linear_length; simpl; lia).
  rewrite IH.
  - rewrite times_linear_length, times_linear_nth. unfold linear_coeff.
    replace (S (length p) - 1)%nat with (S (length p - 1)) by lia.
    rewrite (nth_overflow p) by lia. lia.
  - intros E. pose proof (times_linear_length r p) as H. rewrite E in H.
    discriminate H.
Qed.

(** The coefficient of x^0 is multiplied by -r at every step. *)
Lemma expansion_constant (roots p : list Z) :
  nth 0 (expansion roots p) 0 =
  (-1) ^ Z.of_nat (length roots) * product roots * nth 0 p 0.
Proof.
  revert p. induction roots as [|r roots IH]; intros p.
  - cbn [expansion fold_left length product fold_right]. lia.
  - cbn [expansion fold_left]. fold (expansion roots (times_linear r p)).
    rewrite IH, times_linear_nth. unfold linear_coeff.
    cbn [length product fold_right]. fold (product roots).
    rewrite Nat2Z.inj_succ, Z.pow_succ_r by lia. ring.
Qed.

Lemma nth_lookup_Some_lt (a : list Z) (i : nat) :
  (i < length a)%nat -> a !! i = Some (nth i a 0).
Proof.
  intros H. rewrite nth_lookup.
  destruct (lookup_lt_is_Some_2 a i H) as [x ->]. reflexivity.
Qed.

(** Two linear factors commute. *)
Lemma times_linear_comm (r s : Z) (p : list Z) :
  times_linear r (times_linear s p) = times_linear s (times_linear r p).
Proof.
  apply (nth_ext _ _ 0 0).
  - now rewrite !times_linear_length.
  - intros j _. rewrite !times_linear_nth. unfold linear_coeff.
    rewrite !times_linear_nth. unfold linear_coeff.
    destruct j as [|[|j]]; try rewrite !times_linear_nth;
      unfold linear_coeff; ring.
Qed.

Lemma expansion_permutation (roots roots' : list Z) :
  Permutation roots roots' ->
  forall p, expansion roots p = expansion roots' p.
Proof.
  induction 1 as [|r l l' _ IH|r s l|l l' l'' _ IH1 _ IH2]; intros p.
  - reflexivity.
  - cbn [expansion fold_left]. apply IH.
  - cbn [expansion fold_left]. now rewrite times_linear_comm.
  - now rewrite IH1, IH2.
Qed.

(** ** Claims about the synthesizer *)

(** C4. Vieta: for every root list r_1 .. r_m, m >= 0, the synthesizer
    returns a sequence whose constant term (index 0) is
    (-1)^m * (r_1 * ... * r_m), the empty product being 1. *)
Theorem vieta_constant_term (roots : list Z) :
  exists cs,
    buildPolynomialFromRoots roots = OK cs /\
    cs !! 0%nat = Some ((-1) ^ Z.of_nat (length roots) * product roots).
Proof.
  exists (expansion roots [1]). split; [apply buildPolynomialFromRoots_expansion|].
  rewrite nth_lookup_Some_lt by (rewrite expansion_length; simpl; lia).
  rewrite expansion_constant. cbn [nth]. f_equal. lia.
Qed.

(** C5. For every root list of length m, m = 0 included, the synthesizer
    returns exactly m + 1 coefficients, the last of which (index m, the
    leading coefficient) is 1; for no roots it returns [1]. *)
Theorem monic_of_length_succ (roots : list Z) :
  (exists cs,
     buildPolynomialFromRoots roots = OK cs /\
     length cs = S (length roots) /\
     cs !! length roots = Some 1 /\
     last cs = Some 1) /\
  buildPolynomialFromRoots [] = OK [1].
Proof.
  split; [|reflexivity].
  exists (expansion roots [1]).
  assert (Hlen : length (expansion roots [1]) = S (length roots))
    by (rewrite expansion_length; simpl; lia).
  assert (Hm : expansion roots [1] !! length roots = Some 1).
  { rewrite nth_lookup_Some_lt by lia.
    pose proof (expansion_leading roots [1]) as H. cbn [length nth] in H.
    replace (length roots + 1 - 1)%nat with (length roots) in H by lia.
    rewrite H by discriminate. reflexivity. }
  split; [apply buildPolynomialFromRoots_expansion|].
  split; [exact Hlen|]. split; [exact Hm|].
  rewrite last_lookup, Hlen. exact Hm.
Qed.

(** C8. The synthesizer returns the same coefficient sequence for a root
    list and for any permutation of it. *)
Theorem order_independent (roots roots' : list Z) :
  Permutation roots roots' ->
  exists cs,
    buildPolynomialFromRoots roots = OK cs /\
    buildPolynomialFromRoots roots' = OK cs.
Proof.
  intros H. exists (expansion roots [1]).
  split; [apply buildPolynomialFromRoots_expansion|].
  rewrite (expansion_permutation _ _ H). apply buildPolynomialFromRoots_expansion.
Qed.

Lemma order_independent_witness :
  exists cs,
    buildPolynomialFromRoots [2; 3; 5] = OK cs /\
    buildPolynomialFromRoots [5; 2; 3] = OK cs.
Proof.
  apply order_independent.
  apply Permutation_sym, (Permutation_cons_append [2; 3] 5).
Defined.

(** ** The synthesizer over the store *)

Section HeapSynthesis.

Implicit Types (h : gmap positive (list Z)) (p a rs : list Z).

(** The inner loop writes to [newCoeffs] only, and what it leaves there is
    what the loop over lists computes. *)
Lemma heap_expand_loop (r : Z) (coeffs newCoeffs : Heap.loc) p (todo : nat) :
  newCoeffs <> coeffs ->
  forall h (i : nat) a,
    h !! coeffs = Some p ->
    h !! newCoeffs = Some a ->
    Heap.expand_loop h r coeffs newCoeffs todo i =
    match expand_loop r p todo i a with
    | OK a' => OK (<[newCoeffs := a']> h)
    | Err e => Err e
    end.
Proof.
  intros Hne. induction todo as [|todo IH]; intros h i a Hc Hn.
  - cbn. now rewrite insert_id.
  - cbn [Heap.expand_loop expand_loop]. unfold Heap.read at 1. rewrite Hc.
    destruct (get p i) as [ci|e] eqn:Eg; cbn [bind]; [|reflexivity].
    unfold Heap.add_assign_at at 1. rewrite Hn.
    destruct (add_assign a i (- r * ci)) as [a1|e]; cbn [bind]; [|reflexivity].
    unfold Heap.read. rewrite lookup_insert_ne, Hc, Eg by exact Hne.
    cbn [bind].
    unfold Heap.add_assign_at. rewrite lookup_insert_eq.
    destruct (add_assign a1 (i + 1) ci) as [a2|e]; cbn [bind]; [|reflexivity].
    rewrite insert_insert_eq.
    rewrite (IH _ (S i) a2).
    + destruct (expand_loop r p todo (S i) a2); [|reflexivity].
      now rewrite insert_insert_eq.
    + now rewrite lookup_insert_ne.
    + apply lookup_insert_eq.
Qed.

Lemma fresh_not_allocated h : h !! Heap.next_loc h = None.
Proof. unfold Heap.next_loc. apply not_elem_of_dom. apply is_fresh. Qed.

(** One step allocates one array and leaves every other one as it was. *)
Lemma heap_expand (r : Z) (coeffs : Heap.loc) h p :
  h !! coeffs = Some p ->
  Heap.expand h r coeffs =
  OK (<[Heap.next_loc h := times_linear r p]> h, Heap.next_loc h).
Proof.
  intros Hc. unfold Heap.expand, Heap.length_of, Heap.alloc. rewrite Hc.
  cbn [bind].
  assert (Hne : Heap.next_loc h <> coeffs).
  { intros E. pose proof (fresh_not_allocated h) as H. rewrite E in H. congruence. }
  rewrite (heap_expand_loop r coeffs _ p (length p) Hne _ 0
             (replicate (length p + 1) 0)).
  - pose proof (expand_times_linear r p) as H. unfold expand in H. rewrite H.
    cbn [bind]. now rewrite insert_insert_eq.
  - now rewrite lookup_insert_ne.
  - apply lookup_insert_eq.
Qed.

Lemma heap_build_loop (roots : Heap.loc) rs (todo : nat) :
  forall h (idx : nat) (coeffs : Heap.loc) p,
    h !! roots = Some rs ->
    h !! coeffs = Some p ->
    (idx + todo = length rs)%nat ->
    exists h' out,
      Heap.build_loop h roots todo idx coeffs = OK (h', out) /\
      h ⊆ h' /\
      h' !! out = Some (expansion (drop idx rs) p) /\
      (out = coeffs \/ h !! out = None).
Proof.
  induction todo as [|todo IH]; intros h idx coeffs p Hr Hc Hi.
  - exists h, coeffs. rewrite drop_ge by lia. cbn. auto.
  - cbn [Heap.build_loop]. unfold Heap.read. rewrite Hr.
    destruct (lookup_lt_is_Some_2 rs idx ltac:(lia)) as [r Hidx].
    unfold get. rewrite Hidx. cbn [bind].
    rewrite (heap_expand r coeffs h p Hc). cbn [bind fst snd].
    pose proof (fresh_not_allocated h) as Hfresh.
    set (l := Heap.next_loc h) in *.
    assert (Hsub : h ⊆ <[l := times_linear r p]> h) by now apply insert_subseteq.
    destruct (IH (<[l := times_linear r p]> h) (S idx) l (times_linear r p))
      as (h' & out & Hrun & Hsub' & Hout & Hwhere).
    + now apply (lookup_weaken h).
    + apply lookup_insert_eq.
    + lia.
    + exists h', out. split; [exact Hrun|]. split; [now transitivity (<[l := times_linear r p]> h)|].
      split.
      * rewrite (drop_S _ _ _ Hidx). exact Hout.
      * right. destruct Hwhere as [->|Hnone]; [exact Hfresh|].
        now apply (lookup_weaken_None _ _ _ Hnone).
Qed.

End HeapSynthesis.

(** C9. The synthesizer leaves its input as it was: after the call the
    array [roots] holds the same elements in the same order, the array
    returned is an object that did not exist before the call, so it is not
    the input, and no array that existed before the call has changed. *)
Theorem input_unchanged (h : gmap positive (list Z)) (roots : Heap.loc) (rs : list Z) :
  h !! roots = Some rs ->
  exists h' out cs,
    Heap.buildPolynomialFromRoots h roots = OK (h', out) /\
    h' !! roots = Some rs /\
    h !! out = None /\
    out <> roots /\
    h' !! out = Some cs /\
    buildPolynomialFromRoots rs = OK cs /\
    (forall l a, h !! l = Some a -> h' !! l = Some a).
Proof.
  intros Hr. unfold Heap.buildPolynomialFromRoots, Heap.length_of, Heap.alloc.
  rewrite Hr. cbn [bind].
  pose proof (fresh_not_allocated h) as Hfresh.
  set (l := Heap.next_loc h) in *.
  assert (Hsub : h ⊆ <[l := [1]]> h) by now apply insert_subseteq.
  destruct (heap_build_loop roots rs (length rs) (<[l := [1]]> h) 0 l [1])
    as (h' & out & Hrun & Hsub' & Hout & Hwhere).
  - now apply (lookup_weaken h).
  - apply lookup_insert_eq.
  - lia.
  - assert (Hnone : h !! out = None).
    { destruct Hwhere as [->|Hnone]; [exact Hfresh|].
      now apply (lookup_weaken_None _ _ _ Hnone). }
    exists h', out, (expansion rs [1]). split; [exact Hrun|].
    assert (Hall : forall l' a, h !! l' = Some a -> h' !! l' = Some a).
    { intros l' a Hl. apply (lookup_weaken (<[l := [1]]> h)); [|exact Hsub'].
      now apply (lookup_weaken h). }
    split; [now apply Hall|]. split; [exact Hnone|].
    split; [congruence|]. split; [exact Hout|].
    split; [apply buildPolynomialFromRoots_expansion | exact Hall].
Qed.

Lemma input_unchanged_witness :
  exists h' out cs,
    Heap.buildPolynomialFromRoots {[ 1%positive := [4; 5] ]} 1%positive = OK (h', out) /\
    h' !! 1%positive = Some [4; 5] /\
    ({[ 1%positive := [4; 5] ]} : gmap positive (list Z)) !! out = None /\
    out <> 1%positive /\
    h' !! out = Some cs /\
    buildPolynomialFromRoots [4; 5] = OK cs /\
    (forall l a, ({[ 1%positive := [4; 5] ]} : gmap positive (list Z)) !! l = Some a ->
                 h' !! l = Some a).
Proof.
  apply (input_unchanged {[ 1%positive := [4; 5] ]} 1%positive [4; 5]).
  reflexivity.
Defined.

Example heap_scenario_A :
  (fun r => match r with
            | OK (h', out) => h' !! out
            | Err _ => None
            end)
    (Heap.buildPolynomialFromRoots {[ 1%positive := [4; 5] ]} 1%positive)
  = Some [20; -9; 1].
Proof. vm_compute. reflexivity. Qed.

(** ** One test case: which entries are decoded, which are used *)

Lemma collect_roots_decode_all (tc : testcase) (todo : nat) :
  forall (i : Z) (roots : list Z),
    collect_roots tc todo i roots =
    let* ds := decode_all (omap (fun j => entries tc !! toString j)
                                (seqZ i (Z.of_nat todo))) in
    OK (roots ++ ds).
Proof.
  induction todo as [|todo IH]; intros i roots.
  - change (seqZ i (Z.of_nat 0)) with (@nil Z). cbn. now rewrite app_nil_r.
  - rewrite seqZ_cons by lia.
    replace (Z.pred (Z.of_nat (S todo))) with (Z.of_nat todo) by lia.
    cbn [collect_roots omap list_omap]. fold (@omap list _ Z entry).
    destruct (entries tc !! toString i) as [e|].
    + cbn [decode_all]. fold (decode_entry e).
      destruct (decode_entry e) as [d|err]; cbn [bind]; [|reflexivity].
      rewrite IH. replace (i + 1) with (Z.succ i) by lia.
      destruct (decode_all _) as [ds|err]; cbn [bind]; [|reflexivity].
      now rewrite <- app_assoc.
    + rewrite IH. now replace (i + 1) with (Z.succ i) by lia.
Qed.

(** Every candidate entry is decoded before the roots are counted. *)
Lemma processSingleTestCase_candidates (tc : testcase) (n k idx : Z) :
  keys tc = Some (n, k) ->
  processSingleTestCase tc idx =
  let* roots := decode_all (candidates tc n) in
  if Z.of_nat (length roots) <? k - 1 then
    Err (Err_NotEnoughRoots idx (k - 1) (Z.of_nat (length roots)))
  else
    let used := slice0 roots (k - 1) in
    let* coeffsLowToHigh := buildPolynomialFromRoots used in
    let* c0 := get coeffsLowToHigh 0 in
    OK {| sum_n := n; sum_k := k; sum_degree := k - 1;
          usedRoots := map toString used;
          coeffs_low_to_high := map toString coeffsLowToHigh;
          coeffs_high_to_low := map toString (rev coeffsLowToHigh);
          constant_c := toString c0 |}.
Proof.
  intros Hk. unfold processSingleTestCase. rewrite Hk.
  rewrite collect_roots_decode_all. unfold candidates.
  replace (seqZ 1 (Z.of_nat (Z.to_nat n))) with (seqZ 1 n)
    by (unfold seqZ; now rewrite Nat2Z.id).
  destruct (decode_all _) as [ds|err]; reflexivity.
Qed.

Lemma decode_all_values (es : list entry) :
  Forall decodes es -> decode_all es = OK (values es).
Proof.
  induction 1 as [|e es He _ IH]; [reflexivity|].
  cbn [decode_all values map]. fold (values es). rewrite IH.
  unfold decodes in He. destruct (decode_entry e); [reflexivity | discriminate].
Qed.

Lemma decode_all_fails (es : list entry) (e : entry) :
  e ∈ es -> is_ok (decode_entry e) = false -> is_ok (decode_all es) = false.
Proof.
  induction 1 as [e es|e e' es _ IH]; intros He; cbn [decode_all].
  - destruct (decode_entry e); [discriminate | reflexivity].
  - destruct (decode_entry e'); [|reflexivity]. cbn [bind].
    destruct (decode_all es); [|reflexivity]. now apply IH.
Qed.

Lemma values_take (d : nat) (es : list entry) :
  take d (values es) = values (take d es).
Proof. unfold values. apply firstn_map. Qed.

Lemma slice0_take {A : Type} (a : list A) (e : Z) :
  0 <= e <= Z.of_nat (length a) -> slice0 a e = take (Z.to_nat e) a.
Proof.
  intros H. unfold slice0. replace (e <? 0) with false by lia.
  now rewrite Z.min_l by lia.
Qed.

Lemma values_length (es : list entry) : length (values es) = length es.
Proof. apply length_map. Qed.

(** A case whose candidates all decode and are enough: the first
    [degree] values, and nothing else, reach the synthesizer. *)
Lemma processSingleTestCase_all_decode (tc : testcase) (n k idx : Z) :
  keys tc = Some (n, k) ->
  1 <= k ->
  k - 1 <= Z.of_nat (length (candidates tc n)) ->
  Forall decodes (candidates tc n) ->
  processSingleTestCase tc idx =
  OK (summary_for n k (values (take (Z.to_nat (k - 1)) (candidates tc n)))).
Proof.
  intros Hk Hk1 Hlen Hall.
  rewrite (processSingleTestCase_candidates tc n k idx Hk).
  rewrite (decode_all_values _ Hall). cbn [bind].
  rewrite values_length. replace (_ <? k - 1) with false by lia.
  rewrite slice0_take by (rewrite values_length; lia).
  rewrite values_take.
  rewrite buildPolynomialFromRoots_expansion. cbn [bind].
  rewrite get_nth by (rewrite expansion_length; simpl; lia).
  reflexivity.
Qed.

(** A candidate that does not decode fails the case, wherever it stands. *)
Lemma processSingleTestCase_bad_candidate (tc : testcase) (n k idx : Z) (e : entry) :
  keys tc = Some (n, k) ->
  e ∈ candidates tc n ->
  is_ok (decode_entry e) = false ->
  is_ok (processSingleTestCase tc idx) = false.
Proof.
  intros Hk He Hbad.
  rewrite (processSingleTestCase_candidates tc n k idx Hk).
  pose proof (decode_all_fails _ e He Hbad) as H.
  destruct (decode_all (candidates tc n)); [discriminate H | reflexivity].
Qed.

(** ** Claims about root selection *)

Example case_extra_good_runs :
  processSingleTestCase case_extra_good 0 = OK (summary_for 2 2 [4]).
Proof. vm_compute. reflexivity. Qed.

Example case_extra_bad_fails :
  processSingleTestCase case_extra_bad 0 = Err (Err_InvalidDigitCharacter "!").
Proof. vm_compute. reflexivity. Qed.

(** C1 (as stated, fails). Two cases with the same n and k, enough
    candidates, and the same first [degree] candidates do not always end the
    same way: every candidate is decoded, so a malformed digit string in an
    entry beyond the first [degree] fails the case. *)
Lemma extra_entries_counterexample :
  ~ (forall (tc1 tc2 : testcase) (n k idx : Z),
       keys tc1 = Some (n, k) ->
       keys tc2 = Some (n, k) ->
       1 <= k ->
       k - 1 <= Z.of_nat (length (candidates tc1 n)) ->
       k - 1 <= Z.of_nat (length (candidates tc2 n)) ->
       take (Z.to_nat (k - 1)) (candidates tc1 n) =
       take (Z.to_nat (k - 1)) (candidates tc2 n) ->
       processSingleTestCase tc1 idx = processSingleTestCase tc2 idx).
Proof.
  intros H.
  specialize (H case_extra_good case_extra_bad 2 2 0 eq_refl eq_refl).
  rewrite case_extra_good_runs, case_extra_bad_fails in H.
  assert (E : OK (summary_for 2 2 [4]) = Err (Err_InvalidDigitCharacter "!")).
  { apply H; vm_compute; first [reflexivity | discriminate]. }
  discriminate E.
Qed.

(** C1 (amended). For every test case requiring k >= 1 values whose
    candidate entries (keys "1".."n", ascending) number at least degree:
    every candidate entry is decoded, and a candidate that does not decode
    fails the case wherever it stands; when all of them decode, only the
    first [degree] decoded values are passed to synthesis, so two such cases
    with the same first [degree] candidates return the same record. *)
Theorem extra_entries_decoded_not_used (tc1 tc2 : testcase) (n k idx : Z) :
  keys tc1 = Some (n, k) ->
  keys tc2 = Some (n, k) ->
  1 <= k ->
  k - 1 <= Z.of_nat (length (candidates tc1 n)) ->
  take (Z.to_nat (k - 1)) (candidates tc1 n) =
  take (Z.to_nat (k - 1)) (candidates tc2 n) ->
  (Forall decodes (candidates tc1 n) ->
   Forall decodes (candidates tc2 n) ->
   exists s cs,
     processSingleTestCase tc1 idx = OK s /\
     processSingleTestCase tc2 idx = OK s /\
     buildPolynomialFromRoots
       (values (take (Z.to_nat (k - 1)) (candidates tc1 n))) = OK cs /\
     usedRoots s =
       map toString (values (take (Z.to_nat (k - 1)) (candidates tc1 n))) /\
     coeffs_low_to_high s = map toString cs) /\
  (forall e,
     e ∈ candidates tc1 n ->
     is_ok (decode_entry e) = false ->
     is_ok (processSingleTestCase tc1 idx) = false).
Proof.
  intros Hk1 Hk2 Hk Hlen Htake. split.
  - intros Hall1 Hall2.
    assert (Hlen2 : k - 1 <= Z.of_nat (length (candidates tc2 n))).
    { apply (f_equal length) in Htake. rewrite !length_take in Htake. lia. }
    exists (summary_for n k (values (take (Z.to_nat (k - 1)) (candidates tc1 n)))),
           (expansion (values (take (Z.to_nat (k - 1)) (candidates tc1 n))) [1]).
    split; [now apply processSingleTestCase_all_decode|].
    split; [rewrite Htake; now apply processSingleTestCase_all_decode|].
    split; [apply buildPolynomialFromRoots_expansion|].
    split; reflexivity.
  - intros e He Hbad.
    now apply (processSingleTestCase_bad_candidate tc1 n k idx e).
Qed.

Example case_extra_good_candidates :
  candidates case_extra_good 2 = [mk_entry "10" "4"; mk_entry "10" "5"].
Proof. vm_compute. reflexivity. Qed.

Example case_extra_other_candidates :
  candidates case_extra_other 2 = [mk_entry "10" "4"; mk_entry "16" "-fF"].
Proof. vm_compute. reflexivity. Qed.

Lemma extra_entries_decoded_not_used_witness :
  (exists s cs,
     processSingleTestCase case_extra_good 0 = OK s /\
     processSingleTestCase case_extra_other 0 = OK s /\
     buildPolynomialFromRoots
       (values (take (Z.to_nat (2 - 1)) (candidates case_extra_good 2))) = OK cs /\
     usedRoots s =
       map toString (values (take (Z.to_nat (2 - 1)) (candidates case_extra_good 2))) /\
     coeffs_low_to_high s = map toString cs) /\
  (forall e,
     e ∈ candidates case_extra_good 2 ->
     is_ok (decode_entry e) = false ->
     is_ok (processSingleTestCase case_extra_good 0) = false).
Proof.
  destruct (extra_entries_decoded_not_used case_extra_good case_extra_other 2 2 0)
    as [Hsame Hbad].
  - reflexivity.
  - reflexivity.
  - lia.
  - rewrite case_extra_good_candidates. simpl. lia.
  - rewrite case_extra_good_candidates, case_extra_other_candidates. reflexivity.
  - split; [|exact Hbad]. apply Hsame.
    + rewrite case_extra_good_candidates. repeat constructor.
    + rewrite case_extra_other_candidates. repeat constructor.
Defined.

(** * Further properties of the decoder *)

Lemma isWhiteSpace_lower (c : ascii) :
  isWhiteSpace (toLowerCase_char c) = isWhiteSpace c.
Proof. each_code_unit c; reflexivity. Qed.

Lemma toLowerCase_char_twice (c : ascii) :
  toLowerCase_char (toLowerCase_char c) = toLowerCase_char c.
Proof. each_code_unit c; reflexivity. Qed.

Lemma toLowerCase_twice (s : string) : toLowerCase (toLowerCase s) = toLowerCase s.
Proof.
  induction s as [|c s IH]; [reflexivity|].
  cbn [toLowerCase]. now rewrite toLowerCase_char_twice, IH.
Qed.

Lemma trimStart_lower (s : string) :
  trimStart (toLowerCase s) = toLowerCase (trimStart s).
Proof.
  induction s as [|c s IH]; [reflexivity|].
  cbn [toLowerCase trimStart]. rewrite isWhiteSpace_lower.
  destruct (isWhiteSpace c); [exact IH | reflexivity].
Qed.

Lemma trimEnd_lower (s : string) :
  trimEnd (toLowerCase s) = toLowerCase (trimEnd s).
Proof.
  induction s as [|c s IH]; [reflexivity|].
  cbn [toLowerCase trimEnd]. rewrite IH, isWhiteSpace_lower.
  destruct (trimEnd s); cbn [toLowerCase]; [|reflexivity].
  destruct (isWhiteSpace c); reflexivity.
Qed.

(** X1. The decoder does not tell the case of letters apart: it returns the
    same value, or raises the same error, for a value string and for the
    string in lower case. *)
Theorem decode_case_insensitive (baseStr v : string) :
  decodeBigInt baseStr (toLowerCase v) = decodeBigInt baseStr v.
Proof.
  unfold decodeBigInt, trim.
  now rewrite trimStart_lower, trimEnd_lower, toLowerCase_twice.
Qed.

Lemma trimStart_white_space (ws v : string) :
  white_space ws = true -> trimStart (ws ++ v) = trimStart v.
Proof.
  unfold white_space. induction ws as [|c ws IH]; intros H; [reflexivity|].
  simpl in H. apply andb_prop in H as [Hc Hws].
  rewrite append_cons. cbn [trimStart]. rewrite Hc. now apply IH.
Qed.

Lemma trimEnd_only_white_space (ws : string) :
  white_space ws = true -> trimEnd ws = "".
Proof.
  unfold white_space. induction ws as [|c ws IH]; intros H; [reflexivity|].
  simpl in H. apply andb_prop in H as [Hc Hws].
  cbn [trimEnd]. now rewrite (IH Hws), Hc.
Qed.

Lemma trimEnd_white_space (v ws : string) :
  white_space ws = true -> trimEnd (v ++ ws) = trimEnd v.
Proof.
  intros H. induction v as [|c v IH].
  - now apply trimEnd_only_white_space.
  - rewrite append_cons. cbn [trimEnd]. now rewrite IH.
Qed.

Lemma trimStart_only_white_space (ws : string) :
  white_space ws = true -> trimStart ws = "".
Proof.
  intros H. rewrite <- (append_empty_r ws). now rewrite trimStart_white_space.
Qed.

Lemma trim_white_space_end (v ws : string) :
  white_space ws = true -> trim (v ++ ws) = trim v.
Proof.
  intros H. unfold trim. induction v as [|c v IH].
  - change ("" ++ ws)%string with ws. now rewrite trimStart_only_white_space.
  - rewrite append_cons. cbn [trimStart].
    destruct (isWhiteSpace c); [exact IH|].
    rewrite <- append_cons. now apply trimEnd_white_space.
Qed.

(** X2. White space around the value string is ignored: whatever white
    space stands before and after it, the decoder returns the same value or
    raises the same error. *)
Theorem decode_ignores_outer_white_space (baseStr ws1 v ws2 : string) :
  white_space ws1 = true ->
  white_space ws2 = true ->
  decodeBigInt baseStr (ws1 ++ v ++ ws2) = decodeBigInt baseStr v.
Proof.
  intros H1 H2.
  assert (E : trim (ws1 ++ v ++ ws2) = trim v).
  { unfold trim at 1. rewrite (trimStart_white_space ws1 _ H1).
    now apply trim_white_space_end. }
  unfold decodeBigInt. now rewrite E.
Qed.

Lemma decode_ignores_outer_white_space_witness :
  decodeBigInt "16" (" " ++ "-fF" ++ "  ") = decodeBigInt "16" "-fF".
Proof.
  apply (decode_ignores_outer_white_space "16" " " "-fF" "  "); reflexivity.
Defined.

(** *** What the decoder accepts *)

Lemma decodeBigInt_empty (baseStr v : string) (b : Z) :
  denotes_base baseStr b ->
  trim v = "" ->
  decodeBigInt baseStr v = Err Err_EmptyValueString.
Proof.
  intros [Hp Hb] Ht. unfold decodeBigInt. rewrite Hp, Ht.
  now replace ((b <? 2) || (36 <? b)) with false by lia.
Qed.

Lemma decodeBigInt_only_sign (baseStr v : string) (b : Z) (sg : sign) :
  denotes_base baseStr b ->
  sg <> NoSign ->
  trim v = sign_text sg ->
  decodeBigInt baseStr v = Err Err_OnlySign.
Proof.
  intros [Hp Hb] Hsg Ht. unfold decodeBigInt. rewrite Hp, Ht.
  replace ((b <? 2) || (36 <? b)) with false by lia.
  destruct sg; [congruence | reflexivity | reflexivity].
Qed.

Lemma decodeBigInt_valid_digits (baseStr : string) (b : Z) (sg : sign)
    (ds v : string) :
  denotes_base baseStr b ->
  valid_digits b ds = true ->
  trim v = (sign_text sg ++ ds)%string ->
  decodeBigInt baseStr v = OK (apply_sign sg (spec_positional_value b ds)).
Proof.
  intros Hb Hds Ht. unfold valid_digits in Hds.
  apply andb_prop in Hds as [Hne Hall].
  destruct ds as [|c ds]; [discriminate Hne|].
  assert (Hc : valid_digit b c = true) by (simpl in Hall; now apply andb_prop in Hall).
  destruct (valid_digit_value b c Hc) as (d & Hd & _).
  assert (Hplus : Ascii.eqb c "+" = false).
  { destruct (Ascii.eqb c "+") eqn:E; [|reflexivity].
    apply digit_not_plus in E. congruence. }
  assert (Hminus : Ascii.eqb c "-" = false).
  { destruct (Ascii.eqb c "-") eqn:E; [|reflexivity].
    apply digit_not_minus in E. congruence. }
  pose proof (decode_loop_valid b (String c ds) 0 Hall) as Hloop.
  destruct sg.
  - rewrite (decodeBigInt_unsigned baseStr v b (toLowerCase_char c) (toLowerCase ds)).
    + exact Hloop.
    + exact Hb.
    + now rewrite Ht.
    + now rewrite lower_is_plus.
    + now rewrite lower_is_minus.
  - rewrite (decodeBigInt_signed baseStr v b Plus (toLowerCase_char c) (toLowerCase ds)).
    + cbn [toLowerCase] in Hloop. now rewrite Hloop.
    + exact Hb.
    + discriminate.
    + now rewrite Ht.
  - rewrite (decodeBigInt_signed baseStr v b Minus (toLowerCase_char c) (toLowerCase ds)).
    + cbn [toLowerCase] in Hloop. now rewrite Hloop.
    + exact Hb.
    + discriminate.
    + now rewrite Ht.
Qed.

(** A run of the loop that ends well has read valid digits only. *)
Lemma decode_loop_ok_digits (b : Z) (t : string) :
  forall acc x,
    decode_loop b (toLowerCase t) acc = OK x ->
    forallb (valid_digit b) (list_ascii_of_string t) = true.
Proof.
  induction t as [|c t IH]; intros acc x H; [reflexivity|].
  cbn [toLowerCase decode_loop] in H.
  rewrite charToDigit_spec, spec_digit_value_lower in H.
  simpl. unfold valid_digit at 1.
  destruct (spec_digit_value c) as [d|]; cbn [bind] in H; [|discriminate].
  destruct (Z.leb_spec b d); [discriminate|].
  replace (d <? b) with true by lia. simpl. exact (IH _ x H).
Qed.

Lemma valid_digits_cons (b : Z) (c : ascii) (r : string) :
  forallb (valid_digit b) (list_ascii_of_string (String c r)) = true ->
  valid_digits b (String c r) = true.
Proof. intros H. unfold valid_digits. now rewrite H. Qed.

Lemma eqb_char_eq (c d : ascii) : Ascii.eqb c d = true -> c = d.
Proof. apply Ascii.eqb_eq. Qed.

(** X3. On value strings of code units below 0x100 (the strings of this
    embedding), the decoder returns a value exactly for those that, once
    trimmed, are an optional sign followed by one or more digits valid for
    the base; the value is then the signed positional value.  Among these
    strings it accepts nothing else.  (A code unit above 0xFF that
    [toLowerCase] sends to a digit, such as U+212A to "k", is outside this
    statement.) *)
Theorem decode_accepts_exactly (baseStr v : string) (x : Z) :
  decodeBigInt baseStr v = OK x <->
  exists b sg ds,
    denotes_base baseStr b /\
    trim v = (sign_text sg ++ ds)%string /\
    valid_digits b ds = true /\
    x = apply_sign sg (spec_positional_value b ds).
Proof.
  split.
  - intros H. destruct (decodeBigInt_ok_base _ _ _ H) as [b Hb].
    exists b. destruct (trim v) as [|c0 r] eqn:Ht.
    { rewrite (decodeBigInt_empty baseStr v b Hb Ht) in H. discriminate. }
    assert (Hlow : toLowerCase (trim v) = String (toLowerCase_char c0) (toLowerCase r))
      by now rewrite Ht.
    destruct (Ascii.eqb c0 "+") eqn:Eplus; [|destruct (Ascii.eqb c0 "-") eqn:Eminus].
    + apply eqb_char_eq in Eplus. subst c0.
      destruct r as [|c r].
      { rewrite (decodeBigInt_only_sign baseStr v b Plus Hb) in H by (discriminate || exact Ht).
        discriminate. }
      rewrite (decodeBigInt_signed baseStr v b Plus (toLowerCase_char c) (toLowerCase r) Hb)
        in H by (discriminate || exact Hlow).
      change (String (toLowerCase_char c) (toLowerCase r))
        with (toLowerCase (String c r)) in H.
      destruct (decode_loop b (toLowerCase (String c r)) 0) as [acc|] eqn:El;
        [|discriminate].
      pose proof (decode_loop_ok_digits b _ _ _ El) as Hall.
      rewrite (decode_loop_valid b _ 0 Hall) in El.
      exists Plus, (String c r).
      split; [exact Hb|]. split; [reflexivity|].
      split; [now apply valid_digits_cons|].
      cbn [bind apply_sign] in H |- *. unfold spec_positional_value.
      injection El as <-. now injection H as <-.
    + apply eqb_char_eq in Eminus. subst c0.
      destruct r as [|c r].
      { rewrite (decodeBigInt_only_sign baseStr v b Minus Hb) in H by (discriminate || exact Ht).
        discriminate. }
      rewrite (decodeBigInt_signed baseStr v b Minus (toLowerCase_char c) (toLowerCase r) Hb)
        in H by (discriminate || exact Hlow).
      change (String (toLowerCase_char c) (toLowerCase r))
        with (toLowerCase (String c r)) in H.
      destruct (decode_loop b (toLowerCase (String c r)) 0) as [acc|] eqn:El;
        [|discriminate].
      pose proof (decode_loop_ok_digits b _ _ _ El) as Hall.
      rewrite (decode_loop_valid b _ 0 Hall) in El.
      exists Minus, (String c r).
      split; [exact Hb|]. split; [reflexivity|].
      split; [now apply valid_digits_cons|].
      cbn [bind apply_sign] in H |- *. unfold spec_positional_value.
      injection El as <-. now injection H as <-.
    + rewrite (decodeBigInt_unsigned baseStr v b (toLowerCase_char c0) (toLowerCase r) Hb Hlow)
        in H by (now rewrite ?lower_is_plus, ?lower_is_minus).
      change (String (toLowerCase_char c0) (toLowerCase r))
        with (toLowerCase (String c0 r)) in H.
      pose proof (decode_loop_ok_digits b _ _ _ H) as Hall.
      rewrite (decode_loop_valid b _ 0 Hall) in H.
      exists NoSign, (String c0 r).
      split; [exact Hb|]. split; [reflexivity|].
      split; [now apply valid_digits_cons|].
      cbn [apply_sign]. unfold spec_positional_value. congruence.
  - intros (b & sg & ds & Hb & Ht & Hds & ->).
    now apply (decodeBigInt_valid_digits baseStr b sg ds v).
Qed.

(** *** How the decoder fails *)

Lemma decode_loop_error_kind (b : Z) (s : string) (acc : Z) (e : error) :
  decode_loop b s acc = Err e ->
  kind_of e = InvalidDigitChar \/ kind_of e = DigitOutOfRange.
Proof.
  revert acc. induction s as [|c s IH]; intros acc H; [discriminate|].
  cbn [decode_loop] in H. rewrite charToDigit_spec in H.
  destruct (spec_digit_value c) as [d|]; cbn [bind] in H.
  - destruct (b <=? d); [injection H as <-; now right | now apply (IH _ H)].
  - injection H as <-. now left.
Qed.

(** X4. With a base that is accepted, the decoder raises EmptyValue exactly
    when the trimmed value string is empty or is a sign alone. *)
Theorem empty_value_exactly (baseStr v : string) (b : Z) :
  denotes_base baseStr b ->
  fails_with (decodeBigInt baseStr v) EmptyValue <->
  (trim v = "" \/ trim v = "+" \/ trim v = "-")%string.
Proof.
  intros Hb. split.
  - intros H. destruct (trim v) as [|c0 r] eqn:Ht; [now left|]. right.
    assert (Hlow : toLowerCase (trim v) = String (toLowerCase_char c0) (toLowerCase r))
      by now rewrite Ht.
    assert (Hloop : forall s acc (f : Z -> result Z),
               (forall a, exists y, f a = OK y) ->
               ~ fails_with (bind (decode_loop b s acc) f) EmptyValue).
    { intros s acc f Hf Hfail. destruct (decode_loop b s acc) as [a|e] eqn:El.
      - cbn [bind] in Hfail. destruct (Hf a) as [y Hy]. now rewrite Hy in Hfail.
      - cbn [bind fails_with] in Hfail.
        destruct (decode_loop_error_kind _ _ _ _ El); congruence. }
    destruct (Ascii.eqb c0 "+") eqn:Eplus; [|destruct (Ascii.eqb c0 "-") eqn:Eminus].
    + apply eqb_char_eq in Eplus. subst c0. destruct r as [|c r]; [now left|].
      exfalso.
      rewrite (decodeBigInt_signed baseStr v b Plus (toLowerCase_char c) (toLowerCase r) Hb)
        in H by (discriminate || exact Hlow).
      revert H. apply Hloop. intros a. now eexists.
    + apply eqb_char_eq in Eminus. subst c0. destruct r as [|c r]; [now right|].
      exfalso.
      rewrite (decodeBigInt_signed baseStr v b Minus (toLowerCase_char c) (toLowerCase r) Hb)
        in H by (discriminate || exact Hlow).
      revert H. apply Hloop. intros a. now eexists.
    + exfalso.
      rewrite (decodeBigInt_unsigned baseStr v b (toLowerCase_char c0) (toLowerCase r) Hb Hlow)
        in H by (now rewrite ?lower_is_plus, ?lower_is_minus).
      apply (Hloop (String (toLowerCase_char c0) (toLowerCase r)) 0 (fun a => OK a)).
      * intros a. now eexists.
      * destruct (decode_loop b _ 0); exact H.
  - intros [Ht|[Ht|Ht]].
    + now rewrite (decodeBigInt_empty baseStr v b Hb Ht).
    + now rewrite (decodeBigInt_only_sign baseStr v b Plus Hb).
    + now rewrite (decodeBigInt_only_sign baseStr v b Minus Hb).
Qed.

Lemma empty_value_exactly_witness :
  fails_with (decodeBigInt "10" "  + ") EmptyValue <->
  (trim "  + " = "" \/ trim "  + " = "+" \/ trim "  + " = "-")%string.
Proof.
  apply (empty_value_exactly "10" "  + " 10). split; [reflexivity | lia].
Defined.

Lemma decode_loop_stops (b : Z) (ds : string) (c : ascii) (rest : string) :
  forallb (valid_digit b) (list_ascii_of_string ds) = true ->
  valid_digit b c = false ->
  forall acc,
    decode_loop b (toLowerCase (ds ++ String c rest)) acc = Err (digit_error b c).
Proof.
  intros Hds Hc. induction ds as [|d ds IH]; intros acc.
  - change ("" ++ String c rest)%string with (String c rest).
    cbn [toLowerCase decode_loop].
    rewrite charToDigit_spec, spec_digit_value_lower, toLowerCase_char_twice.
    unfold digit_error. unfold valid_digit in Hc.
    destruct (spec_digit_value c) as [x|]; cbn [bind]; [|reflexivity].
    now replace (b <=? x) with true by lia.
  - simpl in Hds. apply andb_prop in Hds as [Hd Hds].
    rewrite append_cons. cbn [toLowerCase decode_loop].
    rewrite charToDigit_spec, spec_digit_value_lower.
    destruct (valid_digit_value b d Hd) as (x & -> & Hx). cbn [bind].
    replace (b <=? x) with false by lia. now apply IH.
Qed.

(** X5. On value strings of code units below 0x100 (the strings of this
    embedding), the first character that is no valid digit decides the
    error: for a trimmed value made of an optional sign, valid digits, then
    a character [c] that is not a digit of the base (and is not itself read
    as the sign), the decoder raises DigitOutOfRange for [c] when [c] is one
    of 0-9, a-z, A-Z, a digit of a larger base, and InvalidDigitChar for
    [c] otherwise, whatever follows.  (A code unit above 0xFF that
    [toLowerCase] sends to a digit is outside this statement.) *)
Theorem first_bad_character (baseStr v : string) (b : Z) (sg : sign)
    (ds : string) (c : ascii) (rest : string) :
  denotes_base baseStr b ->
  trim v = (sign_text sg ++ ds ++ String c rest)%string ->
  forallb (valid_digit b) (list_ascii_of_string ds) = true ->
  valid_digit b c = false ->
  (sg = NoSign -> ds = ""%string -> Ascii.eqb c "+" = false /\ Ascii.eqb c "-" = false) ->
  decodeBigInt baseStr v = Err (digit_error b c).
Proof.
  intros Hb Ht Hds Hc Hfirst.
  pose proof (decode_loop_stops b ds c rest Hds Hc 0) as Hloop.
  assert (Hcons : exists c1 t, (ds ++ String c rest)%string = String c1 t /\
                    (sg = NoSign -> Ascii.eqb c1 "+" = false /\ Ascii.eqb c1 "-" = false)).
  { destruct ds as [|d ds].
    - exists c, rest. split; [reflexivity|]. intros Hsg. now apply Hfirst.
    - exists d, (ds ++ String c rest)%string. split; [reflexivity|]. intros _.
      simpl in Hds. apply andb_prop in Hds as [Hd _].
      destruct (valid_digit_value b d Hd) as (x & Hx & _).
      split.
      + destruct (Ascii.eqb d "+") eqn:E; [|reflexivity].
        apply digit_not_plus in E. congruence.
      + destruct (Ascii.eqb d "-") eqn:E; [|reflexivity].
        apply digit_not_minus in E. congruence. }
  destruct Hcons as (c1 & t & Et & Hns). rewrite Et in Ht, Hloop.
  cbn [toLowerCase] in Hloop.
  destruct sg.
  - destruct (Hns eq_refl) as [Hplus Hminus].
    rewrite (decodeBigInt_unsigned baseStr v b (toLowerCase_char c1) (toLowerCase t) Hb).
    + exact Hloop.
    + now rewrite Ht.
    + now rewrite lower_is_plus.
    + now rewrite lower_is_minus.
  - rewrite (decodeBigInt_signed baseStr v b Plus (toLowerCase_char c1) (toLowerCase t) Hb).
    + now rewrite Hloop.
    + discriminate.
    + now rewrite Ht.
  - rewrite (decodeBigInt_signed baseStr v b Minus (toLowerCase_char c1) (toLowerCase t) Hb).
    + now rewrite Hloop.
    + discriminate.
    + now rewrite Ht.
Qed.

Lemma first_bad_character_witness :
  decodeBigInt "8" " -17 8z " = Err (Err_InvalidDigitCharacter " ").
Proof.
  apply (first_bad_character "8" " -17 8z " 8 Minus "17" " " "8z").
  - split; [reflexivity | lia].
  - reflexivity.
  - reflexivity.
  - reflexivity.
  - discriminate.
Defined.

(** *** Positional values *)

Section Positional.

Variable b : Z.
Hypothesis base_ge_2 : 2 <= b.

Local Abbreviation step :=
  (fun (a : Z) (c : ascii) => a * b + default 0 (spec_digit_value c)).

Lemma positional_from (l : list ascii) (acc : Z) :
  fold_left step l acc = acc * b ^ Z.of_nat (length l) + fold_left step l 0.
Proof.
  revert acc. induction l as [|c l IH]; intros acc.
  - cbn. lia.
  - cbn [fold_left length]. rewrite (IH (step acc c)), (IH (step 0 c)).
    rewrite Nat2Z.inj_succ, Z.pow_succ_r by lia. ring.
Qed.

Lemma positional_bounds (l : list ascii) :
  forallb (valid_digit b) l = true ->
  0 <= fold_left step l 0 < b ^ Z.of_nat (length l).
Proof.
  induction l as [|c l IH]; intros H.
  - cbn. lia.
  - simpl in H. apply andb_prop in H as [Hc Hl].
    destruct (valid_digit_value b c Hc) as (d & Hd & Hr).
    cbn [fold_left length]. rewrite positional_from.
    rewrite Nat2Z.inj_succ, Z.pow_succ_r by lia.
    rewrite Hd. cbn [default].
    specialize (IH Hl).
    change (id d) with d. replace (0 * b + d) with d by lia.
    assert (0 <= d * b ^ Z.of_nat (length l)) by (apply Z.mul_nonneg_nonneg; lia).
    assert (d * b ^ Z.of_nat (length l) <= (b - 1) * b ^ Z.of_nat (length l))
      by (apply Z.mul_le_mono_nonneg_r; lia).
    lia.
Qed.

End Positional.

Lemma list_ascii_app (s t : string) :
  list_ascii_of_string (s ++ t) = (list_ascii_of_string s ++ list_ascii_of_string t)%list.
Proof.
  induction s as [|c s IH]; [reflexivity|].
  rewrite append_cons. cbn [list_ascii_of_string]. now rewrite IH.
Qed.

Lemma list_ascii_length (s : string) :
  length (list_ascii_of_string s) = String.length s.
Proof. induction s as [|c s IH]; [reflexivity|]. cbn. now rewrite IH. Qed.

Lemma trim_valid_digits (b : Z) (sg : sign) (ds : string) :
  valid_digits b ds = true -> trim (sign_text sg ++ ds) = (sign_text sg ++ ds)%string.
Proof.
  intros H. unfold valid_digits in H. apply andb_prop in H as [Hne Hall].
  destruct ds as [|c ds]; [discriminate Hne|].
  pose proof (trimEnd_digits b _ Hall) as Ht.
  assert (Hws : isWhiteSpace c = false).
  { simpl in Hall. apply andb_prop in Hall as [Hc _].
    destruct (valid_digit_value b c Hc) as (d & Hd & _).
    destruct (isWhiteSpace c) eqn:E; [|reflexivity].
    apply digit_not_white_space in E. congruence. }
  destruct sg; cbv [sign_text String.append].
  - rewrite trim_cons by exact Hws. rewrite trimEnd_cons in Ht by exact Hws.
    now injection Ht as ->.
  - rewrite trim_cons by reflexivity. now rewrite Ht.
  - rewrite trim_cons by reflexivity. now rewrite Ht.
Qed.

(** X6. An unsigned string of n valid digits decodes to a value from 0 up
    to, but not reaching, b^n. *)
Theorem decode_bounds (baseStr : string) (b : Z) (ds : string) :
  denotes_base baseStr b ->
  valid_digits b ds = true ->
  exists v,
    decodeBigInt baseStr ds = OK v /\
    0 <= v < b ^ Z.of_nat (String.length ds).
Proof.
  intros Hb Hds. exists (spec_positional_value b ds). split.
  - apply (decodeBigInt_valid_digits baseStr b NoSign ds ds Hb Hds).
    apply (trim_valid_digits b NoSign ds Hds).
  - unfold valid_digits in Hds. apply andb_prop in Hds as [_ Hall].
    rewrite <- list_ascii_length. apply positional_bounds; [|exact Hall].
    destruct Hb; lia.
Qed.

Lemma decode_bounds_witness :
  exists v, decodeBigInt "16" "fF" = OK v /\ 0 <= v < 16 ^ Z.of_nat (String.length "fF").
Proof.
  apply (decode_bounds "16" 16 "fF"); [split; [reflexivity | lia] | reflexivity].
Defined.

Lemma valid_digits_app (b : Z) (ds1 ds2 : string) :
  valid_digits b ds1 = true -> valid_digits b ds2 = true ->
  valid_digits b (ds1 ++ ds2) = true.
Proof.
  unfold valid_digits. intros H1 H2.
  apply andb_prop in H1 as [Hne H1]. apply andb_prop in H2 as [_ H2].
  rewrite list_ascii_app, forallb_app, H1, H2.
  destruct ds1; [discriminate Hne | reflexivity].
Qed.

(** X7. Decoding composes with concatenation: for two strings of valid
    digits, the value of the first followed by the second is the value of
    the first times b^(length of the second), plus the value of the second. *)
Theorem decode_concatenation (baseStr : string) (b : Z) (ds1 ds2 : string) :
  denotes_base baseStr b ->
  valid_digits b ds1 = true ->
  valid_digits b ds2 = true ->
  exists v1 v2,
    decodeBigInt baseStr ds1 = OK v1 /\
    decodeBigInt baseStr ds2 = OK v2 /\
    decodeBigInt baseStr (ds1 ++ ds2) =
      OK (v1 * b ^ Z.of_nat (String.length ds2) + v2).
Proof.
  intros Hb H1 H2.
  exists (spec_positional_value b ds1), (spec_positional_value b ds2).
  pose proof (valid_digits_app b ds1 ds2 H1 H2) as H12.
  split; [|split].
  - apply (decodeBigInt_valid_digits baseStr b NoSign ds1 ds1 Hb H1).
    apply (trim_valid_digits b NoSign ds1 H1).
  - apply (decodeBigInt_valid_digits baseStr b NoSign ds2 ds2 Hb H2).
    apply (trim_valid_digits b NoSign ds2 H2).
  - rewrite (decodeBigInt_valid_digits baseStr b NoSign (ds1 ++ ds2) (ds1 ++ ds2) Hb H12
               (trim_valid_digits b NoSign _ H12)).
    cbn [apply_sign]. f_equal. unfold spec_positional_value.
    rewrite list_ascii_app, fold_left_app, positional_from, list_ascii_length.
    reflexivity.
Qed.

Lemma decode_concatenation_witness :
  exists v1 v2,
    decodeBigInt "16" "fF" = OK v1 /\
    decodeBigInt "16" "0a" = OK v2 /\
    decodeBigInt "16" ("fF" ++ "0a") = OK (v1 * 16 ^ Z.of_nat (String.length "0a") + v2).
Proof.
  apply (decode_concatenation "16" 16 "fF" "0a");
    [split; [reflexivity | lia] | reflexivity | reflexivity].
Defined.

(** *** Reading back decimal text *)

Lemma pretty_N_char_digit (d : N) :
  (d < 10)%N ->
  valid_digit 10 (pretty_N_char d) = true /\
  spec_digit_value (pretty_N_char d) = Some (Z.of_N d).
Proof.
  intros H.
  assert (d = 0 \/ d = 1 \/ d = 2 \/ d = 3 \/ d = 4 \/ d = 5 \/ d = 6 \/ d = 7
          \/ d = 8 \/ d = 9)%N as Hd by lia.
  repeat (destruct Hd as [->|Hd]; [split; reflexivity|]). subst d. split; reflexivity.
Qed.

Lemma pretty_N_go_digits (x : N) :
  forall s,
    forallb (valid_digit 10) (list_ascii_of_string s) = true ->
    forallb (valid_digit 10) (list_ascii_of_string (pretty_N_go x s)) = true.
Proof.
  induction (N.lt_wf_0 x) as [x _ IH]. intros s Hs.
  destruct (N.eq_dec x 0%N) as [->|Hx]; [now rewrite pretty_N_go_0|].
  rewrite pretty_N_go_step by lia. apply IH.
  - apply N.div_lt; lia.
  - cbn [list_ascii_of_string forallb]. rewrite Hs.
    destruct (pretty_N_char_digit (x mod 10)) as [-> _]; [|reflexivity].
    apply N.mod_lt. lia.
Qed.

Lemma pretty_N_go_value (x : N) :
  forall s,
    fold_left (fun a c => a * 10 + default 0 (spec_digit_value c))
              (list_ascii_of_string (pretty_N_go x s)) 0 =
    fold_left (fun a c => a * 10 + default 0 (spec_digit_value c))
              (list_ascii_of_string s) (Z.of_N x).
Proof.
  induction (N.lt_wf_0 x) as [x _ IH]. intros s.
  destruct (N.eq_dec x 0%N) as [->|Hx]; [now rewrite pretty_N_go_0|].
  rewrite pretty_N_go_step by lia. rewrite IH by (apply N.div_lt; lia).
  cbn [list_ascii_of_string fold_left].
  destruct (pretty_N_char_digit (x mod 10)) as [_ ->]; [apply N.mod_lt; lia|].
  cbn [default]. f_equal. change (id (Z.of_N (x mod 10))) with (Z.of_N (x mod 10)).
  rewrite <- N2Z.inj_mul with (m := 10%N), <- N2Z.inj_add. f_equal.
  rewrite N.mul_comm. symmetry. apply N.div_mod. lia.
Qed.

Lemma pretty_N_go_not_empty (x : N) :
  forall s, s <> ""%string -> pretty_N_go x s <> ""%string.
Proof.
  induction (N.lt_wf_0 x) as [x _ IH]. intros s Hs.
  destruct (N.eq_dec x 0%N) as [->|Hx]; [now rewrite pretty_N_go_0|].
  rewrite pretty_N_go_step by lia. apply IH; [apply N.div_lt; lia | discriminate].
Qed.

Lemma pretty_positive_digits (p : positive) :
  valid_digits 10 (pretty_N_go (N.pos p) "") = true /\
  spec_positional_value 10 (pretty_N_go (N.pos p) "") = Z.pos p.
Proof.
  split.
  - unfold valid_digits.
    rewrite (pretty_N_go_digits (N.pos p) "" eq_refl), andb_true_r.
    rewrite pretty_N_go_step by lia.
    destruct (pretty_N_go _ _) eqn:E; [|reflexivity].
    exfalso. revert E. apply pretty_N_go_not_empty. discriminate.
  - unfold spec_positional_value. now rewrite pretty_N_go_value.
Qed.

(** X8. Round trip with the decimal text the script prints: for every
    integer z and every base specifier read as 10, decoding [z.toString()]
    gives z back. *)
Theorem decode_toString (baseStr : string) (z : Z) :
  denotes_base baseStr 10 ->
  decodeBigInt baseStr (toString z) = OK z.
Proof.
  intros Hb. destruct z as [|p|p].
  - apply (decodeBigInt_valid_digits baseStr 10 NoSign "0" "0" Hb); reflexivity.
  - destruct (pretty_positive_digits p) as [Hd Hv].
    change (toString (Z.pos p)) with (pretty_N_go (N.pos p) "").
    rewrite (decodeBigInt_valid_digits baseStr 10 NoSign _
               (pretty_N_go (N.pos p) "") Hb Hd
               (trim_valid_digits 10 NoSign _ Hd)).
    cbn [apply_sign]. now rewrite Hv.
  - destruct (pretty_positive_digits p) as [Hd Hv].
    change (toString (Z.neg p)) with (sign_text Minus ++ pretty_N_go (N.pos p) "")%string.
    rewrite (decodeBigInt_valid_digits baseStr 10 Minus _ _ Hb Hd
               (trim_valid_digits 10 Minus _ Hd)).
    cbn [apply_sign]. now rewrite Hv.
Qed.

Lemma decode_toString_witness : decodeBigInt "10" (toString (-30)) = OK (-30).
Proof. apply (decode_toString "10" (-30)). split; [reflexivity | lia]. Defined.

(** *** The plus sign *)

Lemma base_accepted_or_not (baseStr : string) :
  (exists b, denotes_base baseStr b) \/ (forall b, ~ denotes_base baseStr b).
Proof.
  unfold denotes_base. destruct (parseInt baseStr 10) as [b|].
  - destruct (Z_le_dec 2 b) as [H2|H2]; [destruct (Z_le_dec b 36) as [H36|H36]|].
    + left. now exists b.
    + right. intros b' [[= <-] ?]. lia.
    + right. intros b' [[= <-] ?]. lia.
  - right. intros b' [[=] _].
Qed.

(** X9. A '+' in front of a digit string changes nothing: the decoder
    returns the same value, or raises the same error, with and without it. *)
Theorem plus_sign_neutral (baseStr s : string) :
  digit_string s = true ->
  decodeBigInt baseStr ("+" ++ s) = decodeBigInt baseStr s.
Proof.
  intros Hs. destruct (base_accepted_or_not baseStr) as [[b Hb]|Hno].
  - unfold digit_string, valid_digits in Hs. apply andb_prop in Hs as [Hne Hall].
    destruct s as [|c s]; [discriminate Hne|].
    assert (Hc : is_Some (spec_digit_value c)).
    { simpl in Hall. apply andb_prop in Hall as [Hc _].
      apply valid_digit_value in Hc as (d & Hd & _). now exists d. }
    pose proof (trimEnd_digits 36 _ Hall) as Ht.
    exact (eq_trans (decodeBigInt_sign_digits baseStr b Plus c s Hb Hc Ht)
             (eq_sym (decodeBigInt_sign_digits baseStr b NoSign c s Hb Hc Ht))).
  - now rewrite !decodeBigInt_invalid_base.
Qed.

Lemma plus_sign_neutral_witness :
  decodeBigInt "16" ("+" ++ "fF") = decodeBigInt "16" "fF".
Proof. apply (plus_sign_neutral "16" "fF"). reflexivity. Defined.

(** *** Base specifiers with text behind the number *)

Lemma radix_digit_decimal (c : ascii) :
  radix_digit 10 c = if decimal_digit c then Some (code c - 48) else None.
Proof. each_code_unit c; reflexivity. Qed.

Lemma parse_digits_tail (ds tail : string) :
  decimal_digits ds = true ->
  no_digit_ahead tail = true ->
  forall acc, parse_digits 10 (ds ++ tail) acc = parse_digits 10 ds acc.
Proof.
  intros Hds Htail. unfold decimal_digits in Hds.
  induction ds as [|c ds IH]; intros acc.
  - change ("" ++ tail)%string with tail. destruct tail as [|c tail]; [reflexivity|].
    cbn [parse_digits]. rewrite radix_digit_decimal.
    cbn [no_digit_ahead] in Htail. now destruct (decimal_digit c).
  - simpl in Hds. apply andb_prop in Hds as [Hc Hds].
    rewrite append_cons. cbn [parse_digits]. rewrite radix_digit_decimal, Hc.
    now apply IH.
Qed.

Lemma parseInt_decimal_first (c : ascii) (s : string) :
  decimal_digit c = true ->
  parseInt (String c s) 10 =
  match parse_digits 10 (String c s) None with
  | Some m => Some (1 * m)
  | None => None
  end.
Proof.
  destruct c as [[] [] [] [] [] [] [] []]; intros H; vm_compute in H;
    first [discriminate H | reflexivity].
Qed.

(** X10. Text behind the number of a base specifier is not looked at: when
    a string of decimal digits is accepted as the base, the same digits
    followed by anything that does not start with a decimal digit (".5",
    "abc", " ") are accepted as the same base, and the decoder returns the
    same result. *)
Theorem base_tail_ignored (ds tail v : string) (b : Z) :
  denotes_base ds b ->
  decimal_digits ds = true ->
  no_digit_ahead tail = true ->
  denotes_base (ds ++ tail) b /\
  decodeBigInt (ds ++ tail) v = decodeBigInt ds v.
Proof.
  intros [Hp Hb] Hds Htail.
  assert (E : parseInt (ds ++ tail) 10 = parseInt ds 10).
  { destruct ds as [|c ds]; [discriminate Hp|].
    assert (Hc : decimal_digit c = true).
    { unfold decimal_digits in Hds. simpl in Hds. now apply andb_prop in Hds. }
    rewrite append_cons, !parseInt_decimal_first by exact Hc.
    rewrite <- append_cons. now rewrite parse_digits_tail. }
  split.
  - split; [now rewrite E | exact Hb].
  - unfold decodeBigInt. rewrite E, Hp.
    now replace ((b <? 2) || (36 <? b)) with false by lia.
Qed.

Lemma base_tail_ignored_witness :
  denotes_base ("2" ++ ".5") 2 /\
  decodeBigInt ("2" ++ ".5") "101" = decodeBigInt "2" "101".
Proof.
  apply (base_tail_ignored "2" ".5" "101" 2);
    [split; [reflexivity | lia] | reflexivity | reflexivity].
Defined.

(** *** Digit characters *)

(** X11. [charToDigit] is one to one up to the case of letters: a value it
    returns lies in 0..35, the character it was given is, in lower case,
    the digit character of that value, and that character maps back to the
    value. *)
Theorem charToDigit_inverse (c : ascii) (d : Z) :
  charToDigit c = OK d ->
  0 <= d < 36 /\
  toLowerCase_char c = digit_char d /\
  charToDigit (digit_char d) = OK d.
Proof.
  destruct c as [[] [] [] [] [] [] [] []]; intros H; vm_compute in H;
    first [discriminate H
          | injection H as <-; split; [lia | split; reflexivity]].
Qed.

Lemma charToDigit_inverse_witness :
  0 <= 15 < 36 /\
  toLowerCase_char "F" = digit_char 15 /\
  charToDigit (digit_char 15) = OK 15.
Proof. apply (charToDigit_inverse "F" 15). reflexivity. Defined.

(** *** The errors of the decoder, all of them *)

Lemma decodeBigInt_accepted_shape (baseStr v : string) (b : Z) :
  denotes_base baseStr b ->
  decodeBigInt baseStr v = Err Err_EmptyValueString \/
  decodeBigInt baseStr v = Err Err_OnlySign \/
  exists s (f : Z -> result Z),
    decodeBigInt baseStr v = bind (decode_loop b s 0) f /\
    forall a, exists y, f a = OK y.
Proof.
  intros [Hp Hb]. unfold decodeBigInt. rewrite Hp.
  replace ((b <? 2) || (36 <? b)) with false by lia.
  destruct (toLowerCase (trim v)) as [|c0 rest]; [now left|]. right.
  destruct ((c0 =? "+")%char || (c0 =? "-")%char) eqn:Es; cbn [andb].
  - destruct rest as [|c rest]; [now left|]. right. cbn [String.length Nat.eqb].
    eexists _, _. split; [reflexivity|]. intros a. now eexists.
  - right. eexists _, _. split; [reflexivity|]. intros a. now eexists.
Qed.

(** X22. The decoder raises nothing but its four kinds of error, and the
    base comes first: an error is InvalidBase, naming the base specifier,
    exactly when the specifier is not accepted, whatever the value string;
    with an accepted base it is EmptyValue, InvalidDigitChar or
    DigitOutOfRange. *)
Theorem decode_error_kinds (baseStr v : string) (e : error) :
  decodeBigInt baseStr v = Err e ->
  (e = Err_InvalidBase baseStr /\ forall b, ~ denotes_base baseStr b) \/
  ((exists b, denotes_base baseStr b) /\
   (kind_of e = EmptyValue \/ kind_of e = InvalidDigitChar \/
    kind_of e = DigitOutOfRange)).
Proof.
  intros H. destruct (base_accepted_or_not baseStr) as [[b Hb]|Hno].
  - right. split; [now exists b|].
    destruct (decodeBigInt_accepted_shape baseStr v b Hb)
      as [E|[E|(s & f & E & Hf)]]; rewrite E in H.
    + injection H as <-. now left.
    + injection H as <-. now left.
    + destruct (decode_loop b s 0) as [a|e'] eqn:El; cbn [bind] in H.
      * destruct (Hf a) as [y Hy]. congruence.
      * injection H as <-. right. now apply (decode_loop_error_kind b s 0).
  - left. split; [|exact Hno].
    rewrite (decodeBigInt_invalid_base baseStr v Hno) in H. now injection H.
Qed.

Lemma decode_error_kinds_witness :
  (Err_InvalidBase "1" = Err_InvalidBase "1" /\ forall b, ~ denotes_base "1" b) \/
  ((exists b, denotes_base "1" b) /\
   (kind_of (Err_InvalidBase "1") = EmptyValue \/
    kind_of (Err_InvalidBase "1") = InvalidDigitChar \/
    kind_of (Err_InvalidBase "1") = DigitOutOfRange)).
Proof. apply (decode_error_kinds "1" "" (Err_InvalidBase "1")). reflexivity. Defined.

(** * Further properties of the synthesizer *)

Lemma shift_scale_length (r prev : Z) (p : list Z) :
  length (shift_scale r prev p) = S (length p).
Proof.
  revert prev. induction p as [|c p IH]; intros prev; [reflexivity|].
  cbn [shift_scale length]. now rewrite IH.
Qed.

Lemma shift_scale_nth (r : Z) (p : list Z) :
  forall (prev : Z) (j : nat),
    nth j (shift_scale r prev p) 0 =
    - r * nth j p 0 + match j with O => prev | S j' => nth j' p 0 end.
Proof.
  induction p as [|c p IH]; intros prev j.
  - destruct j as [|[|j]]; cbn; lia.
  - destruct j as [|j]; [reflexivity|].
    cbn [shift_scale nth]. rewrite IH. destruct j; reflexivity.
Qed.

Lemma times_linear_shift_scale (r : Z) (p : list Z) :
  times_linear r p = shift_scale r 0 p.
Proof.
  apply (nth_ext _ _ 0 0).
  - now rewrite times_linear_length, shift_scale_length.
  - intros j _. rewrite times_linear_nth, shift_scale_nth. reflexivity.
Qed.

Lemma eval_shift_scale (r x : Z) (p : list Z) :
  forall prev, eval (shift_scale r prev p) x = prev + (x - r) * eval p x.
Proof.
  induction p as [|c p IH]; intros prev.
  - cbn. lia.
  - cbn [shift_scale eval fold_right]. fold (eval (shift_scale r c p) x).
    fold (eval p x). rewrite IH. ring.
Qed.

(** One step multiplies the polynomial by (x - r). *)
Lemma eval_times_linear (r x : Z) (p : list Z) :
  eval (times_linear r p) x = (x - r) * eval p x.
Proof. rewrite times_linear_shift_scale, eval_shift_scale. ring. Qed.

Lemma eval_expansion (roots p : list Z) (x : Z) :
  eval (expansion roots p) x = linear_factors roots x * eval p x.
Proof.
  revert p. induction roots as [|r roots IH]; intros p.
  - cbn [expansion fold_left linear_factors fold_right]. lia.
  - cbn [expansion fold_left]. fold (expansion roots (times_linear r p)).
    rewrite IH, eval_times_linear.
    cbn [linear_factors fold_right]. fold (linear_factors roots x). ring.
Qed.

Lemma linear_factors_root (roots : list Z) (r : Z) :
  r ∈ roots -> linear_factors roots r = 0.
Proof.
  induction 1 as [r roots|r r' roots _ IH];
    cbn [linear_factors fold_right]; fold (linear_factors roots r).
  - lia.
  - rewrite IH. lia.
Qed.

(** X12. The coefficients returned are those of (x - r_1) ... (x - r_m):
    evaluated at any x they give that product, so the polynomial vanishes at
    every root it was built from. *)
Theorem synthesized_polynomial (roots : list Z) :
  exists cs,
    buildPolynomialFromRoots roots = OK cs /\
    (forall x, eval cs x = linear_factors roots x) /\
    (forall r, r ∈ roots -> eval cs r = 0).
Proof.
  exists (expansion roots [1]).
  assert (H : forall x, eval (expansion roots [1]) x = linear_factors roots x).
  { intros x. rewrite eval_expansion. cbn [eval fold_right]. lia. }
  split; [apply buildPolynomialFromRoots_expansion|]. split; [exact H|].
  intros r Hr. rewrite H. now apply linear_factors_root.
Qed.

(** The coefficient below the leading one loses r at every step. *)
Lemma expansion_below_leading (rs : list Z) :
  forall (r : Z) (p : list Z) (k : nat),
    length p = S k ->
    nth k p 0 = 1 ->
    nth (length rs + k) (expansion (r :: rs) p) 0 =
    match k with O => 0 | S k' => nth k' p 0 end - sum (r :: rs).
Proof.
  induction rs as [|r' rs IH]; intros r p k Hlen Hlead.
  - cbn [expansion fold_left length sum fold_right Nat.add].
    rewrite times_linear_nth. unfold linear_coeff. rewrite Hlead.
    destruct k; lia.
  - change (expansion (r :: r' :: rs) p)
      with (expansion (r' :: rs) (times_linear r p)).
    replace (length (r' :: rs) + k)%nat with (length rs + S k)%nat by (simpl; lia).
    rewrite (IH r' (times_linear r p) (S k)).
    + rewrite times_linear_nth. unfold linear_coeff. rewrite Hlead.
      cbn [sum fold_right]. destruct k; lia.
    + now rewrite times_linear_length, Hlen.
    + rewrite times_linear_nth. unfold linear_coeff.
      rewrite nth_overflow by lia. lia.
Qed.

(** X13. Vieta for the sum: for at least one root, the coefficient just
    below the leading one (index m - 1) is minus the sum of the roots. *)
Theorem vieta_sum_of_roots (roots : list Z) :
  roots <> [] ->
  exists cs,
    buildPolynomialFromRoots roots = OK cs /\
    cs !! (length roots - 1)%nat = Some (- sum roots).
Proof.
  intros Hne. exists (expansion roots [1]).
  split; [apply buildPolynomialFromRoots_expansion|].
  destruct roots as [|r rs]; [congruence|].
  rewrite nth_lookup_Some_lt by (rewrite expansion_length; simpl; lia).
  replace (length (r :: rs) - 1)%nat with (length rs + 0)%nat by (simpl; lia).
  rewrite (expansion_below_leading rs r [1] 0) by reflexivity.
  f_equal.
Qed.

Lemma vieta_sum_of_roots_witness :
  exists cs,
    buildPolynomialFromRoots [2; 3; 5] = OK cs /\
    cs !! (length [2; 3; 5] - 1)%nat = Some (- sum [2; 3; 5]).
Proof. apply (vieta_sum_of_roots [2; 3; 5]). discriminate. Defined.

(** * Further properties of a test case *)

Lemma processSingleTestCase_ok_inv (tc : testcase) (idx : Z) (s : summary) :
  processSingleTestCase tc idx = OK s ->
  exists n k roots,
    keys tc = Some (n, k) /\
    decode_all (candidates tc n) = OK roots /\
    k - 1 <= Z.of_nat (length roots) /\
    s = summary_for n k (slice0 roots (k - 1)).
Proof.
  intros H. destruct (keys tc) as [[n k]|] eqn:Hk.
  - rewrite (processSingleTestCase_candidates tc n k idx Hk) in H.
    exists n, k. destruct (decode_all (candidates tc n)) as [roots|e];
      cbn [bind] in H; [|discriminate].
    exists roots. destruct (Z.ltb_spec (Z.of_nat (length roots)) (k - 1));
      [discriminate|].
    rewrite buildPolynomialFromRoots_expansion in H. cbn [bind] in H.
    rewrite get_nth in H by (rewrite expansion_length; simpl; lia).
    cbn [bind] in H. injection H as <-. auto.
  - unfold processSingleTestCase in H. rewrite Hk in H. discriminate.
Qed.

Lemma slice0_length {A : Type} (a : list A) (e : Z) :
  0 <= e <= Z.of_nat (length a) -> Z.of_nat (length (slice0 a e)) = e.
Proof. intros H. rewrite slice0_take by exact H. rewrite length_take. lia. Qed.

Lemma expansion_last (used : list Z) : last (expansion used [1]) = Some 1.
Proof.
  rewrite last_lookup, expansion_length.
  replace (pred (length used + length [1])) with (length used) by (simpl; lia).
  rewrite nth_lookup_Some_lt by (rewrite expansion_length; simpl; lia).
  pose proof (expansion_leading used [1]) as H. cbn [length nth] in H.
  replace (length used + 1 - 1)%nat with (length used) in H by lia.
  now rewrite H by discriminate.
Qed.

(** X14. Every record returned is consistent: the high-to-low view is the
    reverse of the low-to-high one and starts with "1", there is one
    coefficient more than roots used, [constant_c] is the first low-to-high
    coefficient, [degree] is k - 1, and for k >= 1 exactly [degree] roots
    were used. *)
Theorem returned_record_consistent (tc : testcase) (idx : Z) (s : summary) :
  processSingleTestCase tc idx = OK s ->
  coeffs_high_to_low s = rev (coeffs_low_to_high s) /\
  head (coeffs_high_to_low s) = Some "1"%string /\
  head (coeffs_low_to_high s) = Some (constant_c s) /\
  length (coeffs_low_to_high s) = S (length (usedRoots s)) /\
  sum_degree s = sum_k s - 1 /\
  (1 <= sum_k s -> Z.of_nat (length (usedRoots s)) = sum_degree s).
Proof.
  intros H. destruct (processSingleTestCase_ok_inv tc idx s H)
    as (n & k & roots & _ & _ & Hlen & ->).
  set (used := slice0 roots (k - 1)).
  cbn [summary_for coeffs_high_to_low coeffs_low_to_high constant_c usedRoots
       sum_degree sum_k].
  split; [apply map_rev|]. split; [|split; [|split; [|split]]].
  - pose proof (expansion_last used) as Hl.
    apply last_Some in Hl as [cs' ->]. now rewrite rev_unit.
  - pose proof (expansion_length used [1]) as Hl.
    destruct (expansion used [1]) as [|c cs]; [simpl in Hl; lia | reflexivity].
  - rewrite !length_map, expansion_length. simpl. lia.
  - reflexivity.
  - intros Hk. rewrite length_map. unfold used. apply slice0_length. lia.
Qed.

Lemma returned_record_consistent_witness :
  coeffs_high_to_low (summary_for 2 2 [4]) = rev (coeffs_low_to_high (summary_for 2 2 [4])) /\
  head (coeffs_high_to_low (summary_for 2 2 [4])) = Some "1"%string /\
  head (coeffs_low_to_high (summary_for 2 2 [4])) = Some (constant_c (summary_for 2 2 [4])) /\
  length (coeffs_low_to_high (summary_for 2 2 [4])) = S (length (usedRoots (summary_for 2 2 [4]))) /\
  sum_degree (summary_for 2 2 [4]) = sum_k (summary_for 2 2 [4]) - 1 /\
  (1 <= sum_k (summary_for 2 2 [4]) ->
   Z.of_nat (length (usedRoots (summary_for 2 2 [4]))) = sum_degree (summary_for 2 2 [4])).
Proof.
  apply (returned_record_consistent case_extra_good 0). vm_compute. reflexivity.
Defined.

(** X15. Too few entries: when every candidate decodes but there are fewer
    of them than [degree], the case fails with InsufficientRoots, reporting
    the degree needed and the number of entries found. *)
Theorem not_enough_roots (tc : testcase) (n k idx : Z) :
  keys tc = Some (n, k) ->
  Forall decodes (candidates tc n) ->
  Z.of_nat (length (candidates tc n)) < k - 1 ->
  processSingleTestCase tc idx =
  Err (Err_NotEnoughRoots idx (k - 1) (Z.of_nat (length (candidates tc n)))).
Proof.
  intros Hk Hall Hlen.
  rewrite (processSingleTestCase_candidates tc n k idx Hk).
  rewrite (decode_all_values _ Hall). cbn [bind]. rewrite values_length.
  now replace (_ <? k - 1) with true by lia.
Qed.

Lemma not_enough_roots_witness :
  processSingleTestCase (mk_testcase (Some (2, 4)) (entries case_extra_good)) 7 =
  Err (Err_NotEnoughRoots 7 (4 - 1)
         (Z.of_nat (length (candidates
            (mk_testcase (Some (2, 4)) (entries case_extra_good)) 2)))).
Proof.
  apply (not_enough_roots (mk_testcase (Some (2, 4)) (entries case_extra_good)) 2 4 7).
  - reflexivity.
  - change (candidates _ 2) with (candidates case_extra_good 2).
    rewrite case_extra_good_candidates. repeat constructor.
  - change (candidates _ 2) with (candidates case_extra_good 2).
    rewrite case_extra_good_candidates. simpl. lia.
Defined.

Lemma decode_all_first_error (good : list entry) (e : entry) (rest : list entry)
    (err : error) :
  Forall decodes good ->
  decode_entry e = Err err ->
  decode_all (good ++ e :: rest) = Err err.
Proof.
  intros Hgood He. induction Hgood as [|g good Hg _ IH].
  - cbn [app decode_all]. now rewrite He.
  - cbn [app decode_all]. rewrite IH. unfold decodes in Hg.
    destruct (decode_entry g); [reflexivity | discriminate].
Qed.

(** X16. The error of a case is that of its first entry, in key order,
    that does not decode: entries behind it are not reached, and it comes
    before the count of the roots. *)
Theorem first_bad_entry (tc : testcase) (n k idx : Z) (good : list entry)
    (e : entry) (rest : list entry) (err : error) :
  keys tc = Some (n, k) ->
  candidates tc n = good ++ e :: rest ->
  Forall decodes good ->
  decode_entry e = Err err ->
  processSingleTestCase tc idx = Err err.
Proof.
  intros Hk Hc Hgood He.
  rewrite (processSingleTestCase_candidates tc n k idx Hk), Hc.
  now rewrite (decode_all_first_error good e rest err Hgood He).
Qed.

Lemma first_bad_entry_witness :
  processSingleTestCase case_extra_bad 0 = Err (Err_InvalidDigitCharacter "!").
Proof.
  apply (first_bad_entry case_extra_bad 2 2 0 [mk_entry "10" "4"]
           (mk_entry "10" "5!") []).
  - reflexivity.
  - vm_compute. reflexivity.
  - repeat constructor.
  - reflexivity.
Defined.

(** X17. Only the keys "1" .. "n" of a test case are read: two cases with
    the same n and k that agree on those keys give the same result, whatever
    else they hold. *)
Theorem other_keys_not_read (tc1 tc2 : testcase) (n k idx : Z) :
  keys tc1 = Some (n, k) ->
  keys tc2 = Some (n, k) ->
  (forall i, 1 <= i <= n -> entries tc1 !! toString i = entries tc2 !! toString i) ->
  processSingleTestCase tc1 idx = processSingleTestCase tc2 idx.
Proof.
  intros H1 H2 Hagree.
  rewrite (processSingleTestCase_candidates tc1 n k idx H1).
  rewrite (processSingleTestCase_candidates tc2 n k idx H2).
  assert (E : candidates tc1 n = candidates tc2 n).
  { unfold candidates. apply list_omap_ext.
    apply Forall2_same_length_lookup. split; [reflexivity|].
    intros j x y Hx Hy. rewrite Hx in Hy. injection Hy as <-.
    apply lookup_seqZ in Hx as [-> Hj]. apply Hagree. lia. }
  now rewrite E.
Qed.

Lemma other_keys_not_read_witness :
  processSingleTestCase case_extra_good 0 =
  processSingleTestCase
    (mk_testcase (Some (2, 2)) (<["3" := mk_entry "1" "?"]> (entries case_extra_good))) 0.
Proof.
  apply (other_keys_not_read case_extra_good _ 2 2 0); [reflexivity | reflexivity |].
  intros i Hi. assert (i = 1 \/ i = 2) as [-> | ->] by lia; reflexivity.
Defined.

(** X18. A case with k <= 0 is never short of roots: its degree k - 1 is
    negative, [slice] counts it from the end, and the case uses all decoded
    roots but the last 1 - k. *)
Theorem non_positive_k (tc : testcase) (n k idx : Z) :
  keys tc = Some (n, k) ->
  k <= 0 ->
  Forall decodes (candidates tc n) ->
  processSingleTestCase tc idx =
  OK (summary_for n k
        (take (Z.to_nat (Z.of_nat (length (candidates tc n)) - (1 - k)))
              (values (candidates tc n)))).
Proof.
  intros Hk Hk0 Hall.
  rewrite (processSingleTestCase_candidates tc n k idx Hk).
  rewrite (decode_all_values _ Hall). cbn [bind]. rewrite values_length.
  destruct (Z.ltb_spec (Z.of_nat (length (candidates tc n))) (k - 1)); [lia|].
  assert (E : slice0 (values (candidates tc n)) (k - 1) =
              take (Z.to_nat (Z.of_nat (length (candidates tc n)) - (1 - k)))
                   (values (candidates tc n))).
  { unfold slice0. rewrite values_length. replace (k - 1 <? 0) with true by lia.
    f_equal. lia. }
  rewrite E, buildPolynomialFromRoots_expansion. cbn [bind].
  rewrite get_nth by (rewrite expansion_length; simpl; lia).
  reflexivity.
Qed.

Lemma non_positive_k_witness :
  processSingleTestCase (mk_testcase (Some (2, 0)) (entries case_extra_good)) 0 =
  OK (summary_for 2 0
        (take (Z.to_nat (Z.of_nat (length (candidates
                 (mk_testcase (Some (2, 0)) (entries case_extra_good)) 2)) - (1 - 0)))
              (values (candidates
                 (mk_testcase (Some (2, 0)) (entries case_extra_good)) 2)))).
Proof.
  apply (non_positive_k (mk_testcase (Some (2, 0)) (entries case_extra_good)) 2 0 0).
  - reflexivity.
  - lia.
  - change (candidates _ 2) with (candidates case_extra_good 2).
    rewrite case_extra_good_candidates. repeat constructor.
Defined.

(** * Properties of the batch loop *)

Lemma case_key_inj (i j : Z) : case_key i = case_key j -> i = j.
Proof.
  unfold case_key, toString. intros H.
  apply (inj (String.app "testcase")) in H. apply (inj pretty) in H. lia.
Qed.

(** Keys that are not those of the cases run are left alone. *)
Lemma run_cases_other_key (tests : list testcase) (key : string) :
  forall i out log,
    (forall j : nat, (j < length tests)%nat -> key <> case_key (i + Z.of_nat j)) ->
    (run_cases tests i out log).1 !! key = out !! key.
Proof.
  induction tests as [|tc tests IH]; intros i out log Hkey; [reflexivity|].
  cbn [run_cases].
  assert (Hrest : forall j : nat, (j < length tests)%nat ->
                    key <> case_key (i + 1 + Z.of_nat j)).
  { intros j Hj. replace (i + 1 + Z.of_nat j) with (i + Z.of_nat (S j)) by lia.
    apply Hkey. simpl. lia. }
  assert (Hi : key <> case_key i).
  { replace i with (i + Z.of_nat 0) by lia. apply Hkey. simpl. lia. }
  destruct (processSingleTestCase tc i); rewrite IH by exact Hrest.
  - now rewrite lookup_insert_ne.
  - reflexivity.
Qed.

Lemma run_cases_at (tests : list testcase) :
  forall i out log (j : nat) tc,
    tests !! j = Some tc ->
    (run_cases tests i out log).1 !! case_key (i + Z.of_nat j) =
    match processSingleTestCase tc (i + Z.of_nat j) with
    | OK s => Some s
    | Err _ => out !! case_key (i + Z.of_nat j)
    end.
Proof.
  induction tests as [|tc0 tests IH]; intros i out log j tc Hj; [discriminate|].
  destruct j as [|j].
  - injection Hj as ->. replace (i + Z.of_nat 0) with i by lia.
    cbn [run_cases].
    assert (Hrest : forall j : nat, (j < length tests)%nat ->
                      case_key i <> case_key (i + 1 + Z.of_nat j)).
    { intros j _ E. apply case_key_inj in E. lia. }
    destruct (processSingleTestCase tc i);
      rewrite run_cases_other_key by exact Hrest.
    + apply lookup_insert_eq.
    + reflexivity.
  - cbn [run_cases]. cbn in Hj.
    replace (i + Z.of_nat (S j)) with (i + 1 + Z.of_nat j) by lia.
    assert (Hne : case_key i <> case_key (i + 1 + Z.of_nat j)).
    { intros E. apply case_key_inj in E. lia. }
    destruct (processSingleTestCase tc0 i); rewrite (IH _ _ _ j tc Hj).
    + now rewrite lookup_insert_ne.
    + reflexivity.
Qed.

Lemma run_cases_log (tests : list testcase) :
  forall i out log c e,
    (c, e) ∈ (run_cases tests i out log).2 <->
    (c, e) ∈ log \/
    exists (j : nat) tc,
      tests !! j = Some tc /\ c = i + Z.of_nat j + 1 /\
      processSingleTestCase tc (i + Z.of_nat j) = Err e.
Proof.
  induction tests as [|tc0 tests IH]; intros i out log c e.
  - cbn [run_cases snd]. split; [now left|]. intros [H|(j & tc & Hj & _)]; [exact H|].
    discriminate.
  - cbn [run_cases]. destruct (processSingleTestCase tc0 i) as [s|e0] eqn:E0;
      rewrite IH; split.
    + intros [H|(j & tc & Hj & -> & Hp)]; [now left|]. right.
      exists (S j), tc. split; [exact Hj|].
      replace (i + Z.of_nat (S j)) with (i + 1 + Z.of_nat j) by lia. now split.
    + intros [H|(j & tc & Hj & -> & Hp)]; [now left|]. right.
      destruct j as [|j].
      * injection Hj as ->. replace (i + Z.of_nat 0) with i in Hp by lia. congruence.
      * exists j, tc. split; [exact Hj|].
        replace (i + 1 + Z.of_nat j) with (i + Z.of_nat (S j)) by lia.
        split; [lia | exact Hp].
    + intros [H|(j & tc & Hj & -> & Hp)].
      * apply elem_of_cons in H as [[= -> ->]|H]; [|now left]. right.
        exists 0%nat, tc0. split; [reflexivity|].
        replace (i + Z.of_nat 0) with i by lia. split; [lia | exact E0].
      * right. exists (S j), tc. split; [exact Hj|].
        replace (i + Z.of_nat (S j)) with (i + 1 + Z.of_nat j) by lia. now split.
    + intros [H|(j & tc & Hj & -> & Hp)]; [left; apply elem_of_cons; now right|].
      destruct j as [|j].
      * injection Hj as ->. replace (i + Z.of_nat 0) with i in Hp by lia.
        left. rewrite E0 in Hp. injection Hp as ->.
        replace (i + Z.of_nat 0 + 1) with (i + 1) by lia. apply elem_of_cons. now left.
      * right. exists j, tc. split; [exact Hj|].
        replace (i + 1 + Z.of_nat j) with (i + Z.of_nat (S j)) by lia.
        split; [lia | exact Hp].
Qed.

Lemma run_cases_count (tests : list testcase) :
  forall i out log,
    (forall j : nat, (j < length tests)%nat -> out !! case_key (i + Z.of_nat j) = None) ->
    (size (run_cases tests i out log).1 + length (run_cases tests i out log).2
     = size out + length log + length tests)%nat.
Proof.
  induction tests as [|tc tests IH]; intros i out log Hfresh.
  - cbn. lia.
  - cbn [run_cases length].
    assert (Hi : out !! case_key i = None).
    { replace i with (i + Z.of_nat 0) by lia. apply Hfresh. simpl. lia. }
    assert (Hrest : forall j : nat, (j < length tests)%nat ->
                      out !! case_key (i + 1 + Z.of_nat j) = None).
    { intros j Hj. replace (i + 1 + Z.of_nat j) with (i + Z.of_nat (S j)) by lia.
      apply Hfresh. simpl. lia. }
    destruct (processSingleTestCase tc i) as [s|e].
    + rewrite IH.
      * rewrite map_size_insert_None by exact Hi. lia.
      * intros j Hj. rewrite lookup_insert_ne; [now apply Hrest|].
        intros E. apply case_key_inj in E. lia.
    + rewrite IH by exact Hrest. simpl. lia.
Qed.

Lemma run_cases_record (tests : list testcase) (key : string) (s : summary) :
  forall i out log,
    (run_cases tests i out log).1 !! key = Some s ->
    out !! key = Some s \/
    exists (j : nat) tc,
      key = case_key (i + Z.of_nat j) /\ tests !! j = Some tc /\
      processSingleTestCase tc (i + Z.of_nat j) = OK s.
Proof.
  induction tests as [|tc0 tests IH]; intros i out log H; [now left|].
  cbn [run_cases] in H.
  destruct (processSingleTestCase tc0 i) as [s0|e0] eqn:E0;
    apply IH in H as [H|(j & tc & -> & Hj & Hp)].
  - destruct (decide (case_key i = key)) as [<-|Hne].
    + rewrite lookup_insert_eq in H. injection H as ->. right.
      exists 0%nat, tc0. replace (i + Z.of_nat 0) with i by lia. auto.
    + rewrite lookup_insert_ne in H by exact Hne. now left.
  - right. exists (S j), tc.
    replace (i + Z.of_nat (S j)) with (i + 1 + Z.of_nat j) by lia. auto.
  - now left.
  - right. exists (S j), tc.
    replace (i + Z.of_nat (S j)) with (i + 1 + Z.of_nat j) by lia. auto.
Qed.

Lemma main_cases_run (tests : list testcase) out log :
  main_cases tests = Some (out, log) -> run_cases tests 0 ∅ [] = (out, log).
Proof.
  unfold main_cases. destruct (length tests =? 0)%nat; [discriminate|].
  now intros [= ->].
Qed.

(** X19. The cases of a batch are independent: each case that succeeds has
    its record under 'testcase' + (its position + 1), each case that fails
    has no record and is reported with its error, and neither aborts the
    batch or changes the outcome of another case. *)
Theorem batch_per_case (tests : list testcase) out log (j : nat) (tc : testcase) :
  main_cases tests = Some (out, log) ->
  tests !! j = Some tc ->
  match processSingleTestCase tc (Z.of_nat j) with
  | OK s => out !! case_key (Z.of_nat j) = Some s
  | Err e => out !! case_key (Z.of_nat j) = None /\ (Z.of_nat j + 1, e) ∈ log
  end.
Proof.
  intros Hmain Hj. apply main_cases_run in Hmain.
  pose proof (run_cases_at tests 0 ∅ [] j tc Hj) as Hat.
  pose proof (run_cases_log tests 0 ∅ [] (Z.of_nat j + 1)) as Hlog.
  rewrite Hmain in Hat, Hlog. cbn [fst snd] in Hat, Hlog.
  replace (0 + Z.of_nat j) with (Z.of_nat j) in Hat by lia.
  destruct (processSingleTestCase tc (Z.of_nat j)) as [s|e] eqn:E; [exact Hat|].
  split; [exact Hat|]. apply Hlog. right. exists j, tc.
  split; [exact Hj|]. split; [lia|].
  now replace (0 + Z.of_nat j) with (Z.of_nat j) by lia.
Qed.

(** X20. Nothing else gets into the output: every record in [out] is the
    record of a case that succeeded, under that case's key, and every error
    reported is the error of a case that failed. *)
Theorem batch_nothing_else (tests : list testcase) out log :
  main_cases tests = Some (out, log) ->
  (forall key s,
     out !! key = Some s ->
     exists (j : nat) tc,
       key = case_key (Z.of_nat j) /\ tests !! j = Some tc /\
       processSingleTestCase tc (Z.of_nat j) = OK s) /\
  (forall c e,
     (c, e) ∈ log ->
     exists (j : nat) tc,
       c = Z.of_nat j + 1 /\ tests !! j = Some tc /\
       processSingleTestCase tc (Z.of_nat j) = Err e).
Proof.
  intros Hmain. apply main_cases_run in Hmain. split.
  - intros key s Hkey.
    pose proof (run_cases_record tests key s 0 ∅ []) as Hrec.
    rewrite Hmain in Hrec. cbn [fst] in Hrec.
    destruct (Hrec Hkey) as [Hempty|(j & tc & -> & Hj & Hp)].
    + rewrite lookup_empty in Hempty. discriminate.
    + exists j, tc. replace (0 + Z.of_nat j) with (Z.of_nat j) in * by lia. auto.
  - intros c e Hin.
    pose proof (run_cases_log tests 0 ∅ [] c e) as Hlog.
    rewrite Hmain in Hlog. cbn [snd] in Hlog.
    apply Hlog in Hin as [Hin|(j & tc & Hj & -> & Hp)].
    + now apply elem_of_nil in Hin.
    + exists j, tc. replace (0 + Z.of_nat j) with (Z.of_nat j) in * by lia.
      split; [lia|]. now split.
Qed.

(** X21. No case is lost: the number of records written and the number of
    errors reported add up to the number of cases. *)
Theorem batch_accounts_for_all (tests : list testcase) out log :
  main_cases tests = Some (out, log) ->
  (size out + length log = length tests)%nat.
Proof.
  intros Hmain. apply main_cases_run in Hmain.
  pose proof (run_cases_count tests 0 ∅ []) as H. rewrite Hmain in H.
  cbn [fst snd] in H. rewrite H by (intros; apply lookup_empty).
  rewrite map_size_empty. simpl. lia.
Qed.

Example batch_example_runs :
  main_cases batch_example =
  Some ((run_cases batch_example 0 ∅ []).1, (run_cases batch_example 0 ∅ []).2).
Proof. vm_compute. reflexivity. Qed.

Lemma batch_per_case_witness :
  match processSingleTestCase case_extra_bad (Z.of_nat 1) with
  | OK s => (run_cases batch_example 0 ∅ []).1 !! case_key (Z.of_nat 1) = Some s
  | Err e =>
      (run_cases batch_example 0 ∅ []).1 !! case_key (Z.of_nat 1) = None /\
      (Z.of_nat 1 + 1, e) ∈ (run_cases batch_example 0 ∅ []).2
  end.
Proof.
  apply (batch_per_case batch_example _ _ 1 case_extra_bad).
  - exact batch_example_runs.
  - reflexivity.
Defined.

Lemma batch_nothing_else_witness :
  (forall key s,
     (run_cases batch_example 0 ∅ []).1 !! key = Some s ->
     exists (j : nat) tc,
       key = case_key (Z.of_nat j) /\ batch_example !! j = Some tc /\
       processSingleTestCase tc (Z.of_nat j) = OK s) /\
  (forall c e,
     (c, e) ∈ (run_cases batch_example 0 ∅ []).2 ->
     exists (j : nat) tc,
       c = Z.of_nat j + 1 /\ batch_example !! j = Some tc /\
       processSingleTestCase tc (Z.of_nat j) = Err e).
Proof.
  apply (batch_nothing_else batch_example). exact batch_example_runs.
Defined.

Lemma batch_accounts_for_all_witness :
  (size (run_cases batch_example 0 ∅ []).1
   + length (run_cases batch_example 0 ∅ []).2 = length batch_example)%nat.
Proof.
  apply (batch_accounts_for_all batch_example). exact batch_example_runs.
Defined.
